(** * fizzy-bubbles-tracker: the debounce utility, the optimistic table
      editors of the bond page, and the array / JSON helpers of [util.ts].

    The development is a shallow embedding.  JavaScript objects carry an
    explicit reference (their identity), property bags are finite maps from
    property names to values, the host's timer table and clock are explicit
    state, and so are the state updates a handler hands to React, which the
    next render applies; every function of the sources is a function on
    that state.

    Layout: part I holds the definitions (one module per source unit),
    part II the lemmas and theorems about them. *)

From stdpp Require Import base gmap strings list.
From Stdlib Require Import ZArith Lia.

(* ===================================================================== *)
(** * Part I: definitions *)
(* ===================================================================== *)

(** ** JavaScript values *)

Module Js.

(** Primitive values, and references to heap objects.  Arrays and plain
    objects are [VObj]; callables are [VFun] ([typeof] tells them apart).
    Numbers are the integers the pages store (ids, bond changes). *)
Inductive value : Type :=
| VUndefined
| VNull
| VBool (b : bool)
| VNum (n : Z)
| VStr (s : string)
| VObj (r : nat)
| VFun (r : nat).

#[global] Instance value_eq_dec : EqDecision value.
Proof. solve_decision. Defined.

(** The [typeof] operator. *)
Definition typeof (v : value) : string :=
  match v with
  | VUndefined => "undefined"
  | VNull => "object"
  | VBool _ => "boolean"
  | VNum _ => "number"
  | VStr _ => "string"
  | VObj _ => "object"
  | VFun _ => "function"
  end.

(** [a === b] and [a !== b] on these values (no NaN among them). *)
Definition strict_eq (a b : value) : bool := bool_decide (a = b).
Definition strict_ne (a b : value) : bool := negb (strict_eq a b).

(** How a call ends: it returns a value or throws (for an [async]
    function: its promise fulfils or rejects). *)
Inductive completion (E : Type) : Type :=
| Normal (v : value)
| Throw (e : E).
#[global] Arguments Normal {E} v.
#[global] Arguments Throw {E} e.

(** A heap object: its identity and its own properties. *)
Record obj : Type := Obj { ref : nat; fields : gmap string value }.

(** [o.prop], [undefined] when the property is missing. *)
Definition get (o : obj) (prop : string) : value :=
  default VUndefined (fields o !! prop).

End Js.

(** ** util.ts: [debounce], over the host's timers *)

Module Debounce.
Import Js.

(** One pending [setTimeout]: the handle returned to the caller, the
    instant it becomes due, and the arguments captured by the callback
    [() => fn.apply(this, args)]. *)
Record timer (A : Type) : Type :=
  Timer { tid : nat; due : Z; payload : A }.
#[global] Arguments Timer {A} tid due payload.
#[global] Arguments tid {A} t.
#[global] Arguments due {A} t.
#[global] Arguments payload {A} t.

(** The host (clock, timer table in insertion order, next handle), the
    closure variable [timeoutId] of one [debounce(fn, ms)] instance, and
    the observable history: every invocation of [fn] with its instant, and
    every error that escaped a timer callback (the host reports those; no
    caller is on the stack). *)
Record world (A E : Type) : Type := World {
  now : Z;
  nextId : nat;
  queue : list (timer A);
  timeoutId : option nat;
  calls : list (Z * A);
  uncaught : list (Z * E)
}.
#[global] Arguments World {A E} now nextId queue timeoutId calls uncaught.
#[global] Arguments now {A E} w.
#[global] Arguments nextId {A E} w.
#[global] Arguments queue {A E} w.
#[global] Arguments timeoutId {A E} w.
#[global] Arguments calls {A E} w.
#[global] Arguments uncaught {A E} w.

(** [setTimeout] treats a negative delay as zero. *)
Definition delay (ms : Z) : Z := Z.max 0 ms.

(** [ms = 300] when [debounce] is given no window. *)
Definition default_ms : Z := 300.

Section Closure.
Context {A E : Type}.

(** [fn] is the caller's function.  Its invocation is recorded in
    [calls]; [fn_throws args] is the error it raises (or rejects with)
    on [args], if any. *)
Variable fn_throws : A -> option E.
Variable ms : Z.

(** A page freshly loaded, [debounce(fn, ms)] just evaluated:
    [let timeoutId] is still [undefined]. *)
Definition init : world A E :=
  World 0 1 [] None [] [].

(** [clearTimeout(id)]: drops the timer with that handle; an
    [undefined] or stale handle is ignored. *)
Definition clearTimeout (id : option nat) (w : world A E) : world A E :=
  match id with
  | None => w
  | Some i =>
      World (now w) (nextId w)
            (filter (fun t => tid t <> i) (queue w))
            (timeoutId w) (calls w) (uncaught w)
  end.

(** [setTimeout(() => fn.apply(this, args), ms)]: returns the new
    handle. *)
Definition setTimeout (args : A) (w : world A E) : nat * world A E :=
  (nextId w,
   World (now w) (S (nextId w))
         (queue w ++ [Timer (nextId w) (now w + delay ms)%Z args])
         (timeoutId w) (calls w) (uncaught w)).

(** The function returned by [debounce(fn, ms)]:
      clearTimeout(timeoutId);
      timeoutId = setTimeout(() => fn.apply(this, args), ms);
    It has no [return], so it completes with [undefined]. *)
Definition debounced (args : A) (w : world A E)
  : completion E * world A E :=
  let w1 := clearTimeout (timeoutId w) w in
  let '(id, w2) := setTimeout args w1 in
  (Normal VUndefined,
   World (now w2) (nextId w2) (queue w2) (Some id)
         (calls w2) (uncaught w2)).

(** The timer the host runs next: the earliest due one, the earlier
    registered first among equals. *)
Fixpoint earliest (q : list (timer A)) : option (timer A) :=
  match q with
  | [] => None
  | t :: q' =>
      match earliest q' with
      | None => Some t
      | Some m => if (due t <=? due m)%Z then Some t else Some m
      end
  end.

Definition next_timer (t : Z) (q : list (timer A)) : option (timer A) :=
  match earliest q with
  | Some m => if (due m <=? t)%Z then Some m else None
  | None => None
  end.

(** The host runs one timer: the entry leaves the table and the callback
    calls [fn] with the captured arguments.  An error of [fn] ends the
    callback and is reported by the host. *)
Definition fire (tm : timer A) (w : world A E) : world A E :=
  let at_ := Z.max (now w) (due tm) in
  World at_ (nextId w)
        (filter (fun t => tid t <> tid tm) (queue w))
        (timeoutId w)
        (calls w ++ [(at_, payload tm)])
        (match fn_throws (payload tm) with
         | Some e => uncaught w ++ [(at_, e)]
         | None => uncaught w
         end).

(** The event loop up to instant [t]: run the due timers in order.
    Callbacks register no timer, so one round per table entry is
    enough (lemma [elapse_drains]). *)
Fixpoint drain (fuel : nat) (t : Z) (w : world A E) : world A E :=
  match fuel with
  | O => w
  | S fuel' =>
      match next_timer t (queue w) with
      | None => w
      | Some tm => drain fuel' t (fire tm w)
      end
  end.

Definition elapse (t : Z) (w : world A E) : world A E :=
  let w' := drain (length (queue w)) t w in
  World (Z.max (now w') t) (nextId w') (queue w') (timeoutId w')
        (calls w') (uncaught w').

(** Whether a call made at instant [t] comes before the timers that are
    due at that very instant.  The host allows both orders: a call made in
    the run that registered the timer (with a window of 0), or from a
    timer registered earlier, comes first; a call made from a later task
    comes second.  The choice is made call by call: [call_first id t] is
    the one for the call whose own timer gets the handle [id]. *)
Variable call_first : nat -> Z -> bool.

(** The clock reaches [t] with the timers due at [t] still waiting: only
    those due before [t] (instants are whole milliseconds) have run. *)
Definition reach (t : Z) (w : world A E) : world A E :=
  let w' := elapse (t - 1) w in
  World (Z.max (now w') t) (nextId w') (queue w') (timeoutId w')
        (calls w') (uncaught w').

(** The state a call made at instant [t] finds. *)
Definition arrive (t : Z) (w : world A E) : world A E :=
  if call_first (nextId w) t then reach t w else elapse t w.

(** A timed call of the debounced function: the clock reaches [t], then
    the call is made. *)
Definition call_at (t : Z) (args : A) (w : world A E) : world A E :=
  snd (debounced args (arrive t w)).

(** A schedule of timed calls, oldest first. *)
Definition run (sched : list (Z * A)) (w : world A E) : world A E :=
  foldl (fun w c => call_at (fst c) (snd c) w) w sched.

(** The results handed back to the callers of a schedule. *)
Fixpoint results (sched : list (Z * A)) (w : world A E)
  : list (completion E) :=
  match sched with
  | [] => []
  | c :: sched' =>
      let '(r, w') := debounced (snd c) (arrive (fst c) w) in
      r :: results sched' w'
  end.

(** What can happen to the closure: it is called, or time passes. *)
Inductive action : Type :=
| Call (args : A)
| Elapse (t : Z).

Definition act (w : world A E) (a : action) : world A E :=
  match a with
  | Call args => snd (debounced args w)
  | Elapse t => elapse t w
  end.

(** The state reached from [w] by a history of actions, oldest first. *)
Definition exec (history : list action) (w : world A E) : world A E :=
  foldl act w history.

(** The pending writes: the arguments waiting in the timer table. *)
Definition pending (w : world A E) : list A := payload <$> queue w.

(** The timer table holds nothing, or the one timer [timeoutId] names,
    not yet overdue. *)
Definition tidy (w : world A E) : Prop :=
  match queue w with
  | [] => True
  | [tm] => timeoutId w = Some (tid tm) /\ (now w <= due tm)%Z
  | _ => False
  end.

(** Right after a call made at instant [t] with [args], [fn] having
    been invoked as [log] tells so far. *)
Definition armed (t : Z) (args : A) (log : list (Z * A))
    (w : world A E) : Prop :=
  exists id,
    queue w = [Timer id (t + delay ms)%Z args] /\
    timeoutId w = Some id /\ calls w = log /\ now w = t.

End Closure.

(** Consecutive instants of a schedule are related by [R] on their gap. *)
Fixpoint gaps (R : Z -> Prop) (ts : list Z) : Prop :=
  match ts with
  | t :: (t' :: _) as rest => R (t' - t)%Z /\ gaps R rest
  | _ => True
  end.


End Debounce.

(** ** The debounced mutator: [debounce(write, W)] called on key and patch *)

Module Mutator.
Import Js Debounce.

Section Calls.
Context {K P E : Type}.
(** The error the underlying [write] fails with on a key and patch, if
    any, and the window. *)
Variable write_fails : K * P -> option E.
Variable W : Z.
(** Which of a call and a timer due at the same instant comes first. *)
Variable call_first : nat -> Z -> bool.

(** [scheduleWrite(key, patch)] is the function [debounce(write, W)]
    returns, applied to [key] and [patch]. *)
Definition scheduleWrite (key : K) (patch : P) (w : world (K * P) E)
    : completion E * world (K * P) E :=
  debounced W (key, patch) w.

(** Timed calls [scheduleWrite(k, patch)] for one key [k]. *)
Definition for_key (k : K) (sched : list (Z * P)) : list (Z * (K * P)) :=
  (fun c => (fst c, (k, snd c))) <$> sched.

(** The invocations of [write] (instant, key and patch) seen by
    instant [T], after the timed calls [sched] on a fresh page. *)
Definition writes (sched : list (Z * (K * P))) (T : Z)
    : list (Z * (K * P)) :=
  calls (elapse write_fails T (run write_fails W call_first sched init)).

End Calls.

End Mutator.

(** ** The debounced saver of a table *)

Module Saver.
Import Js.

(** A pending write: the key of the record, the instant its timer runs
    out, and the patch to write then. *)
Record entry (K P : Type) : Type :=
  Entry { key : K; dueAt : Z; patch : P }.
#[global] Arguments Entry {K P} key dueAt patch.
#[global] Arguments key {K P} e.
#[global] Arguments dueAt {K P} e.
#[global] Arguments patch {K P} e.

(** Modelled from the spec: the state of the debounced mutator of section
    4.1, which the sources only use through [useDebouncedListSave] (defined
    in [~/services], absent from the sources): the clock, the map from keys
    to pending writes (section 9: one timer and one pending patch for each
    key), the invocations of [write] made so far, and the failures of
    [write] handed to the failure observer. *)
Record state (K P E : Type) : Type := State {
  clock : Z;
  pendingWrites : list (entry K P);
  written : list (Z * (K * P));
  reported : list (Z * E)
}.
#[global] Arguments State {K P E} clock pendingWrites written reported.
#[global] Arguments clock {K P E} s.
#[global] Arguments pendingWrites {K P E} s.
#[global] Arguments written {K P E} s.
#[global] Arguments reported {K P E} s.

Section Mutator.
Context {K P E : Type} `{EqDecision K}.

(** The error [write] fails with on a key and patch, if any; the window;
    and how a patch that arrives joins the pending patch of its key (the
    spec leaves open whether it replaces it or is merged into it field by
    field). *)
Variable write_fails : K * P -> option E.
Variable W : Z.
Variable merge : P -> P -> P.

(** A mutator that has not been called yet. *)
Definition init : state K P E := State 0 [] [] [].

(** The pending write of a key, if it has one. *)
Definition pendingFor (k : K) (s : state K P E) : option (entry K P) :=
  List.find (fun e => bool_decide (key e = k)) (pendingWrites s).

(** The patch a call leaves pending for its key: its own, joined to the
    one that was pending. *)
Definition joined (k : K) (p : P) (s : state K P E) : P :=
  match pendingFor k s with
  | Some e => merge (patch e) p
  | None => p
  end.

(** Modelled from the spec: [scheduleWrite(key, patch)] of section 4.1,
    absent from the sources.  It returns at once and never throws; the
    timer of [key] is set to run out one window from now, whether it was
    running or not, and the patch joins the pending patch of [key]; the
    timers of the other keys are left alone. *)
Definition scheduleWrite (k : K) (p : P) (s : state K P E)
    : completion E * state K P E :=
  (Normal VUndefined,
   State (clock s)
         (List.filter (fun e => negb (bool_decide (key e = k)))
                      (pendingWrites s)
          ++ [Entry k (clock s + W) (joined k p s)])
         (written s) (reported s)).

(** Modelled from the spec: the passing of time up to instant [T] for the
    mutator of section 4.1, absent from the sources.  Every pending write
    whose window has run out is flushed: [write(key, mergedPatch)] is
    invoked once and the key is idle again; a failure of [write] goes to
    the observer.  The spec orders the writes of one key only; here the
    writes flushed together keep the order in which their timers were
    set. *)
Definition elapse (T : Z) (s : state K P E) : state K P E :=
  let ready := List.filter (fun e => (dueAt e <=? T)%Z) (pendingWrites s) in
  State (Z.max (clock s) T)
        (List.filter (fun e => negb (dueAt e <=? T)%Z) (pendingWrites s))
        (written s
         ++ ((fun e => (Z.max (clock s) (dueAt e), (key e, patch e)))
               <$> ready))
        (reported s
         ++ omap (fun e =>
                    (fun x => (Z.max (clock s) (dueAt e), x))
                      <$> write_fails (key e, patch e))
                 ready).

End Mutator.

End Saver.

(** ** pages/bond.tsx: the table editors *)

Module Bond.
Import Js Saver.

(** A patch [{ [prop]: value }]. *)
Abbreviation patch_of := (gmap string value).

(** A state update handed to React by a handler of [useListState]
    (@mantine/hooks); each is [setState((current) => ...)] for the function
    told below under [apply_update]. *)
Inductive update : Type :=
| SetItemProp (index : Z) (prop : string) (v : value)
| FilterBy (keep : obj -> bool)
| AppendRows (rows : list obj).

(** One editable table of the page: the list of the last render
    ([bondLogs], [bondConfigs]: what the table shows and what the callbacks
    built at that render read); the updates handed to React since, which
    the next render applies; the allocator of object identities; the
    debounced saver of the table; and the deletes handed to the repository
    (instant and row). *)
Record editor (E : Type) : Type := Editor {
  items : list obj;
  queued : list update;
  nextRef : nat;
  saver : state value patch_of E;
  deleted : list (Z * obj)
}.
#[global] Arguments Editor {E} items queued nextRef saver deleted.
#[global] Arguments items {E} e.
#[global] Arguments queued {E} e.
#[global] Arguments nextRef {E} e.
#[global] Arguments saver {E} e.
#[global] Arguments deleted {E} e.

(** [array.indexOf(x)] for an object [x]: the first index holding the
    same reference, [-1] when there is none. *)
Fixpoint indexOf_from (i : Z) (a : list obj) (x : obj) : Z :=
  match a with
  | [] => (-1)%Z
  | y :: a' =>
      if bool_decide (ref y = ref x) then i
      else indexOf_from (i + 1)%Z a' x
  end.

Definition indexOf (a : list obj) (x : obj) : Z := indexOf_from 0 a x.

(** What an update makes of the current list when React applies it;
    [fresh] is the identity of the next object to be built.
    - [setItemProp(index, prop, value)]: the list is copied and slot
      [index] receives the new object
      [{ ...cloned[index], [prop]: value }].  With [index = -1] the
      assignment lands on the property ["-1"] of the copy, which is no
      element: every element stays as it was.  With [index] the length of
      the list, [cloned[index]] is [undefined] and the new object
      [{ [prop]: value }] is appended.  Beyond that the array gets holes,
      which this list cannot hold: the answer is [None].
    - [filter(keep)]: [current.filter(keep)].
    - [append(...rows)]: [[...current, ...rows]]. *)
Definition apply_update (u : update) (current : list obj) (fresh : nat)
    : option (list obj * nat) :=
  match u with
  | SetItemProp index prop v =>
      if (index <? 0)%Z then Some (current, fresh)
      else
        match current !! Z.to_nat index with
        | Some o =>
            Some (<[Z.to_nat index :=
                      Obj fresh (<[prop := v]> (fields o))]> current,
                  S fresh)
        | None =>
            if (index =? Z.of_nat (length current))%Z
            then Some (current ++ [Obj fresh {[ prop := v ]}], S fresh)
            else None
        end
  | FilterBy keep => Some (List.filter keep current, fresh)
  | AppendRows rows => Some (current ++ rows, fresh)
  end.

Fixpoint apply_updates (us : list update) (current : list obj) (fresh : nat)
    : option (list obj * nat) :=
  match us with
  | [] => Some (current, fresh)
  | u :: us' =>
      match apply_update u current fresh with
      | Some (current', fresh') => apply_updates us' current' fresh'
      | None => None
      end
  end.

Section Editors.
Context {E : Type}.

(** Outcome of the repository calls (TypeORM, outside the sources): the
    error a debounced update fails with, and the error
    [repo.remove(row)] rejects with, if any. *)
Variable write_fails : value * patch_of -> option E.
Variable remove_fails : obj -> option E.
(** The window of the savers, the way they join patches, and the key
    under which a row is saved (its identity, an opaque key). *)
Variable W : Z.
Variable merge : patch_of -> patch_of -> patch_of.
Variable identity : obj -> value.

(** The next render: React applies the updates it was handed, in order,
    and the callbacks are rebuilt over the new list. *)
Definition render (ed : editor E) : option (editor E) :=
  match apply_updates (queued ed) (items ed) (nextRef ed) with
  | Some (current, fresh) =>
      Some (Editor current [] fresh (saver ed) (deleted ed))
  | None => None
  end.

(** A handler of [useListState] hands its update to React and returns;
    the list of the page is not touched. *)
Definition enqueue (u : update) (ed : editor E) : editor E :=
  Editor (items ed) (queued ed ++ [u]) (nextRef ed) (saver ed) (deleted ed).

(** [handler.setItemProp(index, prop, value)] *)
Definition setItemProp (index : Z) (prop : string) (v : value)
    (ed : editor E) : editor E :=
  enqueue (SetItemProp index prop v) ed.

(** [handler.filter(keep)] *)
Definition filterItems (keep : obj -> bool) (ed : editor E) : editor E :=
  enqueue (FilterBy keep) ed.

(** [handler.append(...rows)] *)
Definition append (rows : list obj) (ed : editor E) : editor E :=
  enqueue (AppendRows rows) ed.

(** Modelled from the spec: the function [useDebouncedListSave(repo)]
    returns, absent from the sources ([~/services]).  By section 4.2 of the
    spec the call [save(row, patch)] is
    [scheduleWrite(row.identity, patch)] on the debounced mutator. *)
Definition save (row : obj) (patch : patch_of) (ed : editor E)
    : completion E * editor E :=
  let '(r, s) := scheduleWrite W merge (identity row) patch (saver ed) in
  (r, Editor (items ed) (queued ed) (nextRef ed) s (deleted ed)).

(** The three statements shared by [dataTableConfig.edit] and
    [onBondConfigEdit]:
      const index = list.indexOf(row);
      handler.setItemProp(index, prop, value);
      save(row, { [prop]: value }); *)
Definition edit_body (row : obj) (prop : string) (v : value)
    (ed : editor E) : completion E * editor E :=
  let index := indexOf (items ed) row in
  let ed1 := setItemProp index prop v ed in
  let '(_, ed2) := save row {[ prop := v ]} ed1 in
  (Normal VUndefined, ed2).

(** [dataTableConfig.edit] on [bondLogs] / [saveBondLog]. *)
Definition edit (log : obj) (prop : string) (v : value)
    (ed : editor E) : completion E * editor E :=
  edit_body log prop v ed.

(** [onBondConfigEdit] on [bondConfigs] / [saveBondConfig]. *)
Definition onBondConfigEdit (config : obj) (prop : string) (v : value)
    (ed : editor E) : completion E * editor E :=
  edit_body config prop v ed.

(** [dataTableConfig.remove]:
      bondLogsHandler.filter((l) => l.id !== log.id);
      await bondRepo.remove(log); *)
Definition remove (log : obj) (ed : editor E)
    : completion E * editor E :=
  let ed1 := filterItems (fun l => strict_ne (get l "id") (get log "id"))
               ed in
  let ed2 := Editor (items ed1) (queued ed1) (nextRef ed1) (saver ed1)
                    (deleted ed1 ++ [(clock (saver ed1), log)]) in
  match remove_fails log with
  | Some e => (Throw e, ed2)
  | None => (Normal VUndefined, ed2)
  end.

(** Time passes on the page: the windows of the saver run out. *)
Definition wait (t : Z) (ed : editor E) : editor E :=
  Editor (items ed) (queued ed) (nextRef ed)
         (elapse write_fails t (saver ed)) (deleted ed).

(** The page once its rows are loaded and shown. *)
Definition loaded (rows : list obj) (fresh : nat) : editor E :=
  Editor rows [] fresh init [].

End Editors.

End Bond.

(** ** util.ts: [findLastIndex] *)

Module FindLast.

Section Loop.
Context {T : Type}.
Variable array : list T.
Variable predicate : T -> Z -> list T -> bool.

(** The loop [for (let i = ...; i > 0; i--)], entered with [i = n]:
    it stops as soon as [i > 0] fails.  [array[i]] is always in range
    here (lemma [loop_in_range]), so the branch for a missing slot is
    never taken. *)
Fixpoint loop (n : nat) : Z :=
  match n with
  | O => (-1)%Z
  | S n' =>
      match array !! n with
      | Some item =>
          if predicate item (Z.of_nat n) array then Z.of_nat n
          else loop n'
      | None => loop n'
      end
  end.

(** [i] starts at [array.length - 1]; for the empty array that is
    [-1], where [i > 0] fails at once, as it does for [0]. *)
Definition findLastIndex : Z :=
  loop (Z.to_nat (Z.of_nat (length array) - 1)).

(** [predicate(array[j], j, array)] for an index of the array. *)
Definition holds (j : nat) : bool :=
  match array !! j with
  | Some item => predicate item (Z.of_nat j) array
  | None => false
  end.

End Loop.

End FindLast.

(** ** util.ts: [getCircularReplacer] *)

Module Replacer.
Import Js.

(** The [WeakSet] [seen], as the set of references it holds. *)
Definition has (seen : gset nat) (v : value) : bool :=
  match v with
  | VObj r => bool_decide (r ∈ seen)
  | _ => false
  end.

(** [seen.add(value)]; reached with objects only. *)
Definition add (seen : gset nat) (v : value) : gset nat :=
  match v with
  | VObj r => {[ r ]} ∪ seen
  | _ => seen
  end.

(** [typeof value === "object" && value !== null] *)
Definition is_object (v : value) : bool :=
  bool_decide (typeof v = "object") && strict_ne v VNull.

(** The closure returned by [getCircularReplacer()]; a bare [return]
    yields [undefined]. *)
Definition replacer (key val : value) (seen : gset nat)
    : value * gset nat :=
  if is_object val then
    if has seen val then (VUndefined, seen)
    else (val, add seen val)
  else (val, seen).

(** [getCircularReplacer()] itself: [seen] starts as a new, empty set. *)
Definition fresh_seen : gset nat := ∅.

(** Successive calls of one replacer, threading [seen]. *)
Fixpoint replace_all (kvs : list (value * value)) (seen : gset nat)
    : list value :=
  match kvs with
  | [] => []
  | (k, v) :: kvs' =>
      let '(r, seen') := replacer k v seen in
      r :: replace_all kvs' seen'
  end.

(** Whether a value must come out as [undefined]: it is an object that
    [seen] already holds or that is among the values passed [before]. *)
Definition dropped (seen : gset nat) (before : list value) (v : value)
    : bool :=
  is_object v && (has seen v || bool_decide (v ∈ before)).

End Replacer.

(** ** Sample data of the scenarios *)

Module Scenario.
Import Js Debounce.

(** The patch [{ value: n }]. *)
Definition value_patch (n : Z) : gmap string value :=
  {[ "value" := VNum n ]}.

(** A store on which no operation fails. *)
Definition healthy {X : Type} : X -> option string := fun _ => None.

(** A store on which every operation fails. *)
Definition broken {X : Type} : X -> option string :=
  fun _ => Some "SQLITE_ERROR".

(** The two orders of a call and a timer due at the same instant. *)
Definition calls_first : nat -> Z -> bool := fun _ _ => true.
Definition timers_first : nat -> Z -> bool := fun _ _ => false.

(** Row [{ id: 7, value: 0 }] of [bondLogs], and a row object that is not
    in the list. *)
Definition row7 : obj :=
  Obj 1 (<[ "id" := VNum 7 ]> (value_patch 0)).
Definition stray : obj :=
  Obj 2 (<[ "id" := VNum 9 ]> (value_patch 0)).

(** The copy of [row7] that [edit(row7, "value", 5)] puts in the list. *)
Definition row7_edited : obj :=
  Obj 3 (<[ "value" := VNum 5 ]> (fields row7)).

(** Rows are saved under their [id]; a patch that arrives replaces the
    pending one, or is merged into it field by field. *)
Definition by_id (o : obj) : value := get o "id".
Definition replace_patch (old new : gmap string value)
    : gmap string value := new.

(** The page after [edit(row7, "value", 5)] at 0ms, the render that
    follows and 50ms of idling, with a window of 250ms: the list shows the
    edited copy, the write is pending. *)
Definition edited_page : Bond.editor string :=
  Bond.Editor [row7_edited] [] 4
    (Saver.State 50 [Saver.Entry (VNum 7) 250 (value_patch 5)] [] []) [].

End Scenario.
(** ** util.ts: what [debounce] amounts to on a timed schedule *)

Module Trailing.
Import Debounce.


(** The arguments of the calls of a history, oldest first. *)
Fixpoint call_args {A : Type} (history : list (action (A := A))) : list A :=
  match history with
  | [] => []
  | Call args :: history' => args :: call_args history'
  | Elapse _ :: history' => call_args history'
  end.

End Trailing.

(** ** util.ts: [filterUnique] and [uniqueOnProp] *)

Module Unique.
Import Js.

(** [a === b] on the values of a type. *)
Class StrictEq (T : Type) : Type := same : T -> T -> bool.
#[global] Hint Mode StrictEq ! : typeclass_instances.

(** Any value of the language, as far as [===] tells: the values of [Js],
    where [VNum 0] is the zero [+0], the zero [-0] and the number [NaN]. *)
Inductive any : Type :=
| NaN
| NegZero
| Val (v : value).

(** [NaN] is equal to nothing, itself included; the two zeros are equal;
    the other values are equal when they are the same primitive or the
    same reference. *)
#[global] Instance any_same : StrictEq any := fun a b =>
  match a, b with
  | NaN, _ | _, NaN => false
  | NegZero, NegZero => true
  | NegZero, Val v | Val v, NegZero => strict_eq v (VNum 0)
  | Val v, Val w => strict_eq v w
  end.

(** An object as its own properties; [o[prop]] is [undefined] when the
    property is missing. *)
Definition prop_of (o : gmap string any) (prop : string) : any :=
  default (Val VUndefined) (o !! prop).

Section Arrays.
Context {T : Type}.

(** [array.findIndex(p)] for a callback that reads the element only; the
    arrays here are dense. *)
Fixpoint findIndex_from (i : Z) (p : T -> bool) (array : list T) : Z :=
  match array with
  | [] => (-1)%Z
  | y :: array' =>
      if p y then i else findIndex_from (i + 1)%Z p array'
  end.

Definition findIndex (p : T -> bool) (array : list T) : Z :=
  findIndex_from 0 p array.

(** [array.indexOf(item)]: the first index whose element is strictly equal
    to [item], [-1] when there is none. *)
Definition indexOf `{StrictEq T} (array : list T) (item : T) : Z :=
  findIndex (fun y => same y item) array.

(** [array.filter(callback)]: the callback receives the element, its index
    and the array. *)
Fixpoint filter_from (callback : T -> Z -> list T -> bool)
    (array : list T) (i : Z) (rest : list T) : list T :=
  match rest with
  | [] => []
  | x :: rest' =>
      if callback x i array then x :: filter_from callback array (i + 1)%Z rest'
      else filter_from callback array (i + 1)%Z rest'
  end.

Definition array_filter (callback : T -> Z -> list T -> bool)
    (array : list T) : list T :=
  filter_from callback array 0 array.

(** [filterUnique(item, index, array)]:
      array.indexOf(item) === index *)
Definition filterUnique `{StrictEq T} (item : T) (index : Z)
    (array : list T) : bool :=
  bool_decide (indexOf array item = index).

(** [uniqueOnProp(prop)(item, index, array)]:
      array.findIndex((i) => i[prop] === item[prop]) === index
    where [read i prop] is [i[prop]]. *)
Definition uniqueOnProp {K : Type} `{StrictEq K} (read : T -> string -> K)
    (prop : string) (item : T) (index : Z) (array : list T) : bool :=
  bool_decide
    (findIndex (fun i => same (read i prop) (read item prop)) array = index).

(** The elements of [l] whose key is equal to itself, to no key of [seen]
    and to the key of no earlier element of [l]: what a filter on first
    occurrences keeps. *)
Fixpoint firsts {K : Type} `{StrictEq K} (key : T -> K) (seen : list K)
    (l : list T) : list T :=
  match l with
  | [] => []
  | x :: l' =>
      if same (key x) (key x)
         && negb (existsb (fun k => same k (key x)) seen)
      then x :: firsts key (seen ++ [key x]) l'
      else firsts key (seen ++ [key x]) l'
  end.

End Arrays.

(** No element of [l] is equal to a later one, and each is equal to
    itself. *)
Definition distinct {T K : Type} `{StrictEq K} (key : T -> K)
    (l : list T) : Prop :=
  Forall (fun x => same (key x) (key x) = true) l /\
  ForallOrdPairs (fun x y => same (key x) (key y) = false) l.

End Unique.

(** ** pages/bond.tsx: loading the styling configs, adding a row *)

Module BondPage.
Import Js Saver Bond.

Section Page.
Context {E : Type}.

(** [repo.create(plain)] of TypeORM: the entity object built from a plain
    object.  [repo.save(entity)]: the stored row, or the error the call
    rejects with. *)
Variable create : gmap string value -> obj.
Variable save : obj -> obj + E.
(** The [TypeError] raised by reading a property of [undefined]. *)
Variable type_error : E.
(** [dayjs().utc()] at the time of the call. *)
Variable today : value.

(** The configs shown once the page has loaded:
      const tempConfigs = pkmList
        .filter((p) => bndConfigs.every((b) => b.pokemonUuid !== p.uuid))
        .map((p) => bondConfigRepo.create({ pokemonUuid: p.uuid }));
      bondConfigsHandler.setState(bndConfigs.concat(tempConfigs)); *)
Definition tempConfigs (pkmList bndConfigs : list obj) : list obj :=
  (fun p => create {[ "pokemonUuid" := get p "uuid" ]}) <$>
    List.filter
      (fun p =>
         forallb (fun b => strict_ne (get b "pokemonUuid") (get p "uuid"))
                 bndConfigs)
      pkmList.

Definition loadedConfigs (pkmList bndConfigs : list obj) : list obj :=
  bndConfigs ++ tempConfigs pkmList bndConfigs.

(** The entity [add] builds for the first pokemon of the list:
      bondRepo.create({ value: 0, pokemon: p.uuid, date: dayjs().utc() }) *)
Definition newLog (p : obj) : obj :=
  create (<[ "value" := VNum 0 ]>
            (<[ "pokemon" := get p "uuid" ]>
               {[ "date" := today ]})).

(** [dataTableConfig.add]:
      bondLogsHandler.append(
        await bondRepo.save(
          bondRepo.create({
            value: 0,
            pokemon: pokemonList[0].uuid,
            date: dayjs().utc(),
          })));
    The object literal is evaluated first: with an empty [pokemonList],
    [pokemonList[0]] is [undefined] and reading [uuid] throws.  The row
    is handed to [append] once the repository has answered.  The third
    component lists the entities handed to [bondRepo.save]. *)
Definition add (pokemonList : list obj) (ed : editor E)
    : completion E * editor E * list obj :=
  match pokemonList with
  | [] => (Throw type_error, ed, [])
  | p :: _ =>
      match save (newLog p) with
      | inl row =>
          (Normal VUndefined, Bond.append [row] ed, [newLog p])
      | inr e => (Throw e, ed, [newLog p])
      end
  end.

End Page.

(** The rows a table shows are distinct objects, all allocated before
    [nextRef]. *)
Definition distinct_rows {E : Type} (ed : editor E) : Prop :=
  NoDup (ref <$> items ed) /\
  Forall (fun o => (ref o < nextRef ed)%nat) (items ed).

End BondPage.

(** ** pages/word-counter.tsx *)

Module WordCounter.
Import Js Debounce.

(** A string is the list of its UTF-16 code units. *)
Abbreviation text := (list N).

(** The code units of an ASCII literal. *)
Definition codes (s : string) : text :=
  Ascii.N_of_ascii <$> String.list_ascii_of_string s.

(** *** [onTextChange] *)

(** What the callback touches: the [text] state of the component and the
    rows handed to [repo.save] (key and value). *)
Record page : Type := Page {
  shown : option text;
  saved : list (string * text)
}.

(** The function given to [debounce]:
      setText(newText);
      if (!repo) return;
      repo.save({ key: "word counter", value: newText }).then();
    [repo] tells whether the repository is set in the closure. *)
Definition onTextChange_fn (repo : bool) (newText : text) (p : page)
    : page :=
  let p1 := Page (Some newText) (saved p) in
  if negb repo then p1
  else Page (shown p1) (saved p1 ++ [("word counter", newText)]).

(** The window given to [debounce]. *)
Definition window : Z := 250.

(** The page after the invocations recorded for the debounced closure. *)
Definition page_after {E : Type} (repo : bool) (p : page)
    (w : world text E) : page :=
  foldl (fun p c => onTextChange_fn repo (snd c) p) p (calls w).

(** *** The word count of the label *)

(** The class [\s]: white space and line terminators. *)
Definition is_space (c : N) : bool :=
  ((c =? 9) || (c =? 10) || (c =? 11) || (c =? 12) || (c =? 13) ||
   (c =? 32) || (c =? 160) || (c =? 5760) ||
   ((8192 <=? c) && (c <=? 8202)) ||
   (c =? 8232) || (c =? 8233) || (c =? 8239) || (c =? 8287) ||
   (c =? 12288) || (c =? 65279))%N.

(** [s.split(/\s/gm)]: the pieces between white space code units, empty
    ones included; [piece] is the piece being read. *)
Fixpoint split_from (piece : text) (s : text) : list text :=
  match s with
  | [] => [piece]
  | c :: s' =>
      if is_space c then piece :: split_from [] s'
      else split_from (piece ++ [c]) s'
  end.

Definition split (s : text) : list text := split_from [] s.

(** [.split(/\s/gm).filter((w) => w.length !== 0).length] *)
Definition countWords (s : text) : nat :=
  length (List.filter (fun w => negb (length w =? 0)%nat) (split s)).

(** The non-empty pieces of a text whose first piece has [piece] read
    already; [countWords s] is [pieces [] s]. *)
Definition pieces (piece : text) (s : text) : nat :=
  length (List.filter (fun w => negb (length w =? 0)%nat)
                      (split_from piece s)).

(** *** The pattern [/\[quote\S+].*\[\/quote]/gis] *)

(** Case folding of the [i] flag, as far as comparing with an ASCII
    character of the pattern goes: ASCII letters fold to upper case, and no
    code unit beyond ASCII folds into ASCII. *)
Definition canon (c : N) : N :=
  if ((97 <=? c) && (c <=? 122))%N then (c - 32)%N else c.

(** A literal piece of the pattern at the head of [s]. *)
Fixpoint literal (pat : text) (s : text) : option text :=
  match pat with
  | [] => Some s
  | p :: pat' =>
      match s with
      | c :: s' => if (canon c =? canon p)%N then literal pat' s' else None
      | [] => None
      end
  end.

Definition open_tag : text := codes "[quote".
Definition close_tag : text := codes "[/quote]".
Definition bracket : N := 93.

(** [.*\[\/quote]] at the head of [s], with the [s] flag: the star takes a
    code unit first and gives it back only if the rest fails.  The answer
    is the length matched. *)
Fixpoint body_close (s : text) : option nat :=
  match s with
  | [] => None
  | c :: s' =>
      match body_close s' with
      | Some n => Some (S n)
      | None =>
          match literal close_tag s with
          | Some _ => Some (length close_tag)
          | None => None
          end
      end
  end.

(** []] followed by [.*\[\/quote]]. *)
Definition bracket_body_close (s : text) : option nat :=
  match s with
  | c :: s' => if (c =? bracket)%N then S <$> body_close s' else None
  | [] => None
  end.

(** [\S*] followed by the rest of the pattern: greedy as well. *)
Fixpoint attr_rest (s : text) : option nat :=
  match s with
  | [] => None
  | c :: s' =>
      if is_space c then bracket_body_close s
      else
        match attr_rest s' with
        | Some n => Some (S n)
        | None => bracket_body_close s
        end
  end.

(** The whole pattern at the head of [s]: the length of the match. *)
Definition match_here (s : text) : option nat :=
  match literal open_tag s with
  | Some (c :: s') =>
      if is_space c then None
      else (fun n => length open_tag + S n)%nat <$> attr_rest s'
  | _ => None
  end.

(** [s.replaceAll(pattern, "")]: the leftmost match is dropped and the
    search goes on behind it; [skip] counts the code units of a match
    still to drop. *)
Fixpoint strip_from (skip : nat) (s : text) : text :=
  match s with
  | [] => []
  | c :: s' =>
      match skip with
      | S k => strip_from k s'
      | O =>
          match match_here s with
          | Some (S k) => strip_from k s'
          | _ => c :: strip_from 0 s'
          end
      end
  end.

Definition stripQuotes (s : text) : text := strip_from 0 s.

(** The number in the label:
      text?.replaceAll(...).split(/\s/gm).filter(...).length ?? 0 *)
Definition labelCount (t : option text) : nat :=
  match t with
  | Some s => countWords (stripQuotes s)
  | None => 0
  end.

End WordCounter.

(** ** Sample data of the further scenarios *)

Module Samples.
Import Js Debounce Unique Bond BondPage WordCounter Scenario.




(** [[{ k: NaN }, { k: 1 }, { k: 1, n: 2 }, { k: NaN }, {}]] *)
Definition keyed : list (gmap string any) :=
  [ {[ "k" := NaN ]}; {[ "k" := Val (VNum 1) ]};
    <[ "n" := Val (VNum 2) ]> {[ "k" := Val (VNum 1) ]};
    {[ "k" := NaN ]}; ∅ ].

(** A repository whose entities are the plain objects they are built
    from, and which stores rows under the id 8. *)
Definition plain_create (plain : gmap string value) : obj := Obj 0 plain.
Definition store_as_8 (o : obj) : obj + string :=
  inl (Obj (ref o) (<[ "id" := VNum 8 ]> (fields o))).

(** Two pokemon, and the stored config of the first. *)
Definition pikachu : obj := Obj 10 {[ "uuid" := VStr "u1" ]}.
Definition eevee : obj := Obj 11 {[ "uuid" := VStr "u2" ]}.
Definition pikachu_config : obj := Obj 20 {[ "pokemonUuid" := VStr "u1" ]}.

(** A second row of [bondLogs]. *)
Definition row9 : obj :=
  Obj 2 (<[ "id" := VNum 9 ]> (value_patch 0)).

(** Three keystrokes, 100ms apart. *)
Definition keystrokes : list (Z * text) :=
  [(100%Z, codes "he"); (200%Z, codes "hey")].

End Samples.

(* ===================================================================== *)
(** * Part II: lemmas and theorems *)
(* ===================================================================== *)

(** ** The timer table under [debounce] *)

Section DebounceFacts.
Import Js Debounce.
Context {A E : Type}.
Variable fn_throws : A -> option E.
Variable ms : Z.

Local Open Scope Z_scope.

Lemma earliest_elem (q : list (timer A)) (m : timer A) :
  earliest q = Some m -> m ∈ q.
Proof.
  revert m. induction q as [|t q IH]; intros m; simpl; [done|].
  destruct (earliest q) as [m'|] eqn:Hq.
  - destruct (due t <=? due m'); intros [= <-].
    + apply list_elem_of_here.
    + apply list_elem_of_further. by apply IH.
  - intros [= <-]. apply list_elem_of_here.
Qed.

Lemma next_timer_elem (t : Z) (q : list (timer A)) (m : timer A) :
  next_timer t q = Some m -> m ∈ q /\ due m <= t.
Proof.
  unfold next_timer. destruct (earliest q) as [m'|] eqn:Hq; [|done].
  destruct (due m' <=? t) eqn:Hd; [|done].
  intros [= <-]. split; [by apply earliest_elem | lia].
Qed.

Lemma filter_drop_shrinks (q : list (timer A)) (m : timer A) :
  m ∈ q ->
  (length (filter (fun t => tid t <> tid m) q) < length q)%nat.
Proof.
  induction q as [|t q IH]; intros Hin; [by apply elem_of_nil in Hin|].
  rewrite filter_cons. destruct (decide (tid t <> tid m)) as [Hne|Heq].
  - simpl. apply elem_of_cons in Hin as [->|Hin]; [done|].
    specialize (IH Hin). lia.
  - simpl. pose proof (length_filter (fun t => tid t <> tid m) q). lia.
Qed.

(** The fuel of [drain] is enough: once [elapse t] is over, no timer that
    is due by [t] is left in the table. *)
Lemma drain_drains (fuel : nat) (t : Z) (w : world A E) :
  (length (queue w) <= fuel)%nat ->
  next_timer t (queue (drain fn_throws fuel t w)) = None.
Proof.
  revert w. induction fuel as [|fuel IH]; intros w Hlen; simpl.
  - destruct (queue w); [done | simpl in Hlen; lia].
  - destruct (next_timer t (queue w)) as [tm|] eqn:Hn; [|done].
    apply IH. apply next_timer_elem in Hn as [Hin _].
    simpl. pose proof (filter_drop_shrinks _ _ Hin). lia.
Qed.

Lemma elapse_drains (t : Z) (w : world A E) :
  next_timer t (queue (elapse fn_throws t w)) = None.
Proof. unfold elapse. simpl. by apply drain_drains. Qed.



(** *** One call *)


Lemma debounced_completion (args : A) (w : world A E) :
  fst (debounced ms args w) = Normal VUndefined.
Proof. unfold debounced. by destruct (setTimeout ms args _). Qed.

Lemma debounced_history (args : A) (w : world A E) :
  calls (snd (debounced ms args w)) = calls w /\
  uncaught (snd (debounced ms args w)) = uncaught w /\
  now (snd (debounced ms args w)) = now w.
Proof. unfold debounced, clearTimeout. by destruct (timeoutId w). Qed.

Lemma debounced_queue (args : A) (w : world A E) :
  queue (snd (debounced ms args w)) =
    match timeoutId w with
    | Some i => filter (fun t => tid t <> i) (queue w)
    | None => queue w
    end ++ [Timer (nextId w) (now w + delay ms) args].
Proof. unfold debounced, clearTimeout. by destruct (timeoutId w). Qed.

Lemma debounced_tidy (args : A) (w : world A E) :
  tidy w ->
  queue (snd (debounced ms args w)) =
    [Timer (nextId w) (now w + delay ms) args] /\
  timeoutId (snd (debounced ms args w)) = Some (nextId w).
Proof.
  unfold tidy. intros Ht. split.
  - rewrite debounced_queue.
    destruct (queue w) as [|tm [|tm' q]]; [by destruct (timeoutId w)| |done].
    destruct Ht as [-> _]. rewrite filter_cons.
    by destruct (decide (tid tm <> tid tm)).
  - unfold debounced, clearTimeout. by destruct (timeoutId w).
Qed.

Lemma debounced_keeps_tidy (args : A) (w : world A E) :
  tidy w -> tidy (snd (debounced ms args w)).
Proof.
  intros Ht. destruct (debounced_tidy args w Ht) as [Hq Hid].
  destruct (debounced_history args w) as (_ & _ & Hnow).
  unfold tidy. rewrite Hq, Hid, Hnow. simpl. unfold delay. split; [done|lia].
Qed.

(** *** Time passing over a tidy table *)

Lemma elapse_idle (t : Z) (w : world A E) :
  queue w = [] ->
  elapse fn_throws t w =
    World (Z.max (now w) t) (nextId w) [] (timeoutId w)
          (calls w) (uncaught w).
Proof. intros Hq. unfold elapse. rewrite Hq. simpl. by rewrite Hq. Qed.

Lemma elapse_early (t : Z) (w : world A E) (tm : timer A) :
  queue w = [tm] -> t < due tm ->
  elapse fn_throws t w =
    World (Z.max (now w) t) (nextId w) [tm] (timeoutId w)
          (calls w) (uncaught w).
Proof.
  intros Hq Hlt. unfold elapse. rewrite Hq. simpl.
  unfold next_timer. rewrite Hq. simpl.
  destruct (due tm <=? t) eqn:Hd; [lia|]. by rewrite Hq.
Qed.

Lemma elapse_flush (t : Z) (w : world A E) (tm : timer A) :
  queue w = [tm] -> now w <= due tm -> due tm <= t ->
  elapse fn_throws t w =
    World t (nextId w) [] (timeoutId w)
          (calls w ++ [(due tm, payload tm)])
          (match fn_throws (payload tm) with
           | Some e => uncaught w ++ [(due tm, e)]
           | None => uncaught w
           end).
Proof.
  intros Hq Hnow Hle. unfold elapse. rewrite Hq. simpl.
  unfold next_timer. rewrite Hq. simpl.
  destruct (due tm <=? t) eqn:Hd; [|lia].
  unfold fire. rewrite Hq. rewrite filter_cons.
  destruct (decide (tid tm <> tid tm)); [done|]. simpl.
  rewrite filter_nil. simpl.
  replace (Z.max (now w) (due tm)) with (due tm) by lia.
  f_equal. lia.
Qed.

Lemma elapse_keeps_tidy (t : Z) (w : world A E) :
  tidy w -> tidy (elapse fn_throws t w).
Proof.
  unfold tidy. intros Ht.
  destruct (queue w) as [|tm [|tm' q]] eqn:Hq; [| |done].
  - by rewrite elapse_idle.
  - destruct Ht as [Hid Hnow].
    destruct (Z_lt_le_dec t (due tm)) as [Hlt|Hle].
    + rewrite (elapse_early t w tm Hq Hlt). simpl. split; [done|lia].
    + by rewrite (elapse_flush t w tm Hq Hnow Hle).
Qed.

Lemma init_tidy : tidy (@init A E).
Proof. done. Qed.

Lemma exec_tidy (history : list (action (A:=A))) (w : world A E) :
  tidy w -> tidy (exec fn_throws ms history w).
Proof.
  revert w. induction history as [|a h IH]; intros w Ht; [done|].
  simpl. apply IH. destruct a; simpl.
  - by apply debounced_keeps_tidy.
  - by apply elapse_keeps_tidy.
Qed.
End DebounceFacts.

(** ** Schedules of calls *)

Section Schedules.
Import Js Debounce.
Context {A E : Type}.
Variable fn_throws : A -> option E.
Variable ms : Z.
Variable call_first : nat -> Z -> bool.

Local Open Scope Z_scope.

Lemma armed_tidy (t : Z) (a : A) (log : list (Z * A)) (w : world A E) :
  armed ms t a log w -> tidy w.
Proof.
  intros (id & Hq & Hid & _ & Hnow). unfold tidy. rewrite Hq. simpl.
  unfold delay. split; [done|lia].
Qed.


(** The state a call finds, on a tidy table. *)
Lemma arrive_idle (t : Z) (w : world A E) :
  queue w = [] ->
  arrive fn_throws call_first t w =
    World (Z.max (now w) t) (nextId w) [] (timeoutId w)
          (calls w) (uncaught w).
Proof.
  intros Hq. unfold arrive, reach.
  destruct (call_first (nextId w) t); rewrite elapse_idle by done; [|done].
  cbn. f_equal. lia.
Qed.

Lemma arrive_early (t : Z) (w : world A E) (tm : timer A) :
  queue w = [tm] ->
  t < due tm \/ (call_first (nextId w) t = true /\ t <= due tm) ->
  arrive fn_throws call_first t w =
    World (Z.max (now w) t) (nextId w) [tm] (timeoutId w)
          (calls w) (uncaught w).
Proof.
  intros Hq Ht. unfold arrive, reach. destruct (call_first (nextId w) t).
  - rewrite (elapse_early fn_throws (t - 1) w tm Hq) by lia.
    cbn. f_equal. lia.
  - destruct Ht as [Ht|[Hc _]]; [|done].
    by rewrite (elapse_early fn_throws t w tm Hq Ht).
Qed.


(** A call on a tidy table whose timer, if any, has not run when the call
    is made. *)
Lemma call_at_armed (t : Z) (a : A) (w : world A E) :
  tidy w -> now w <= t ->
  (forall tm, queue w = [tm] ->
     t < due tm \/ (call_first (nextId w) t = true /\ t <= due tm)) ->
  armed ms t a (calls w) (call_at fn_throws ms call_first t a w).
Proof.
  intros Ht Hnow Hearly. unfold call_at.
  set (w1 := arrive fn_throws call_first t w).
  assert (Hel : tidy w1 /\ calls w1 = calls w /\ now w1 = t /\
                nextId w1 = nextId w).
  { subst w1. unfold tidy in Ht.
    destruct (queue w) as [|tm [|tm' q]] eqn:Hq; [| |done].
    - rewrite arrive_idle by done. unfold tidy. cbn.
      repeat split; lia.
    - destruct Ht as [Hid Hdue].
      rewrite (arrive_early t w tm Hq (Hearly tm eq_refl)).
      unfold tidy. cbn. repeat split; try done.
      + destruct (Hearly tm eq_refl) as [?|[_ ?]]; lia.
      + lia. }
  destruct Hel as (Htidy & Hcalls & Hnow' & Hnext).
  destruct (debounced_tidy ms a w1 Htidy) as [Hq Hid].
  destruct (debounced_history ms a w1) as (Hc & _ & Hn).
  exists (nextId w). rewrite Hq, Hid, Hc, Hn, Hcalls, Hnow', Hnext. done.
Qed.

(** A call that comes before the pending timer is due replaces it. *)
Lemma call_within_window (t t' : Z) (a a' : A) (log : list (Z * A))
    (w : world A E) :
  armed ms t a log w -> 0 <= t' - t < ms ->
  armed ms t' a' log (call_at fn_throws ms call_first t' a' w).
Proof.
  intros Harm Hgap. pose proof (armed_tidy _ _ _ _ Harm) as Ht.
  destruct Harm as (id & Hq & Hid & Hlog & Hnow).
  rewrite <- Hlog. apply call_at_armed; [done|lia|].
  intros tm Htm. rewrite Hq in Htm. injection Htm as <-. simpl.
  left. unfold delay. lia.
Qed.



(** The window of the last call runs out. *)
Lemma armed_flush (t T : Z) (a : A) (log : list (Z * A)) (w : world A E) :
  armed ms t a log w -> t + delay ms <= T ->
  calls (elapse fn_throws T w) = log ++ [(t + delay ms, a)] /\
  queue (elapse fn_throws T w) = [].
Proof.
  intros (id & Hq & Hid & Hlog & Hnow) Hle.
  assert (Hdelay : 0 <= delay ms) by (unfold delay; lia).
  rewrite (elapse_flush fn_throws T w _ Hq) by (simpl; lia). simpl.
  by rewrite Hlog.
Qed.

Lemma last_cons_default {X : Type} (x d : X) (l : list X) :
  List.last (x :: l) d = List.last l x.
Proof.
  revert x d. induction l as [|y l IH]; intros x d; [done|].
  change (List.last (x :: y :: l) d) with (List.last (y :: l) d).
  by rewrite !IH.
Qed.

(** A burst: every call comes before the previous one's timer is due.
    The table ends up holding the last call only, and [fn] has not been
    invoked. *)
Lemma run_burst (rest : list (Z * A)) (t : Z) (a : A)
    (log : list (Z * A)) (w : world A E) :
  armed ms t a log w ->
  gaps (fun g => 0 <= g < ms) (t :: rest.*1) ->
  armed ms (fst (List.last rest (t, a))) (snd (List.last rest (t, a))) log
        (run fn_throws ms call_first rest w).
Proof.
  revert t a w. induction rest as [|[t' a'] rest IH]; intros t a w Harm Hg.
  - done.
  - rewrite last_cons_default. simpl in Hg. destruct Hg as [Hgap Hg].
    simpl. apply IH; [|done].
    by apply (call_within_window t t' a a').
Qed.


Lemma last_fmap {X Y : Type} (f : X -> Y) (l : list X) (d : X) :
  List.last (f <$> l) (f d) = f (List.last l d).
Proof.
  induction l as [|x l IH]; [done|].
  rewrite fmap_cons, !last_cons_default. clear IH. revert x.
  induction l as [|y l IH]; intros x; [done|].
  by rewrite fmap_cons, !last_cons_default.
Qed.

End Schedules.

(** ** The debounced mutator *)

Section MutatorFacts.
Import Js Debounce Mutator.
Context {K P E : Type}.
Variable write_fails : K * P -> option E.
Variable W : Z.
Variable call_first : nat -> Z -> bool.

Local Open Scope Z_scope.

Lemma for_key_times (k : K) (sched : list (Z * P)) :
  (for_key k sched).*1 = sched.*1.
Proof.
  unfold for_key. rewrite <- list_fmap_compose. by apply list_fmap_ext.
Qed.

Lemma first_call_armed (t : Z) (a : K * P) :
  0 <= t ->
  armed W t a [] (call_at write_fails W call_first t a (@init (K * P) E)).
Proof.
  intros Ht.
  apply (call_at_armed write_fails W call_first t a init);
    [done|simpl; lia|].
  intros tm Hq. discriminate Hq.
Qed.

(** C1.  Calls [scheduleWrite(k, patch)] for one key, each less than the
    window [W] after the one before: once the window of the last call has
    run out, [write] has been invoked exactly once, for [k] with the patch
    of the last call, at the end of that window (whichever comes first of
    a call and a timer due at the same instant). *)
Theorem burst_writes_last_patch_once
    (k : K) (t0 : Z) (p0 : P) (more : list (Z * P)) (T : Z) :
  0 <= t0 ->
  gaps (fun g => 0 <= g < W) (t0 :: more.*1) ->
  fst (List.last more (t0, p0)) + delay W <= T ->
  writes write_fails W call_first (for_key k ((t0, p0) :: more)) T =
    [(fst (List.last more (t0, p0)) + delay W,
      (k, snd (List.last more (t0, p0))))].
Proof.
  intros Ht0 Hg HT. unfold writes.
  change (for_key k ((t0, p0) :: more))
    with ((t0, (k, p0)) :: for_key k more).
  change (run write_fails W call_first
              ((t0, (k, p0)) :: for_key k more) init)
    with (run write_fails W call_first (for_key k more)
            (call_at write_fails W call_first t0 (k, p0) init)).
  pose proof (first_call_armed t0 (k, p0) Ht0) as Harm.
  apply (run_burst write_fails W call_first (for_key k more)) in Harm;
    [|by rewrite for_key_times].
  unfold for_key in Harm at 1 2.
  change (t0, (k, p0)) with ((fun c : Z * P => (c.1, (k, c.2))) (t0, p0))
    in Harm.
  rewrite last_fmap in Harm. cbn [fst snd] in Harm.
  by destruct (armed_flush write_fails W _ T _ _ _ Harm HT) as [-> _].
Qed.

(** Two calls less than a window apart, whatever their arguments: the
    first one's timer is cleared by the second. *)
Lemma second_call_wins (a1 a2 : K * P) (t1 t2 T : Z) :
  0 <= t1 -> 0 <= t2 - t1 < W -> t2 + W <= T ->
  writes write_fails W call_first [(t1, a1); (t2, a2)] T = [(t2 + W, a2)].
Proof.
  intros Ht1 Hgap HT. unfold writes.
  assert (Hd : delay W = W) by (unfold delay; lia).
  pose proof (first_call_armed t1 a1 Ht1) as Harm.
  apply (call_within_window write_fails W call_first t1 t2 _ a2) in Harm;
    [|done].
  destruct (armed_flush write_fails W t2 T _ _ _ Harm) as [Hc _]; [lia|].
  unfold run. cbn [foldl fst snd]. rewrite Hc, Hd. done.
Qed.

(** C2, as the code has it.  The closure holds one timer for all keys: a
    call made while another key's write is pending (less than [W] after
    it) cancels that write; [write] is invoked once, for the later call
    only. *)
Theorem later_call_cancels_other_key
    (k1 k2 : K) (p1 p2 : P) (t1 t2 T : Z) :
  0 <= t1 -> 0 <= t2 - t1 < W -> t2 + W <= T ->
  writes write_fails W call_first [(t1, (k2, p2)); (t2, (k1, p1))] T =
    [(t2 + W, (k1, p1))].
Proof. apply second_call_wins. Qed.


(** C5.  In every state the mutator can reach, the timer table holds at
    most one pending write, hence at most one for each key; from such a
    state a call leaves its own key and patch as the only pending write,
    due one window after the call, and invokes no [write]; so does every
    flush keep the bound. *)
Theorem one_pending_write `{EqDecision K}
    (history : list (action (A := K * P))) :
  let w := exec write_fails W history init in
  (length (pending w) <= 1)%nat /\
  (forall k, (length (filter (fun a => fst a = k) (pending w)) <= 1)%nat) /\
  (forall k p,
      let w' := snd (scheduleWrite W k p w) in
      pending w' = [(k, p)] /\
      due <$> queue w' = [now w + delay W] /\
      calls w' = calls w) /\
  (forall t, (length (pending (elapse write_fails t w)) <= 1)%nat).
Proof.
  intros w.
  assert (Ht : tidy w) by (apply exec_tidy; apply init_tidy).
  assert (Hone : forall v : world (K * P) E,
             tidy v -> (length (pending v) <= 1)%nat).
  { intros v Hv. unfold tidy in Hv. unfold pending.
    destruct (queue v) as [|tm [|tm' q]]; simpl; [lia|lia|done]. }
  repeat split.
  - by apply Hone.
  - intros k. etransitivity; [apply length_filter|by apply Hone].
  - unfold scheduleWrite, pending.
    by destruct (debounced_tidy W (k, p) w Ht) as [-> _].
  - unfold scheduleWrite.
    by destruct (debounced_tidy W (k, p) w Ht) as [-> _].
  - unfold scheduleWrite. by destruct (debounced_history W (k, p) w) as [-> _].
  - intros t. apply Hone. by apply elapse_keeps_tidy.
Qed.

(** C7.  A call of the debounced function completes normally with
    [undefined], at the instant it was made and without invoking [fn];
    so does every call of every schedule, whatever [fn] would fail with.
    A failure of [fn] arises in the timer callback and goes to the
    host's error record only. *)
Theorem failure_never_reaches_caller :
  (forall (args : K * P) (w : world (K * P) E),
      fst (debounced W args w) = Normal VUndefined /\
      calls (snd (debounced W args w)) = calls w /\
      uncaught (snd (debounced W args w)) = uncaught w /\
      now (snd (debounced W args w)) = now w) /\
  (forall (sched : list (Z * (K * P))) (w : world (K * P) E),
      results write_fails W call_first sched w =
        replicate (length sched) (Normal VUndefined)) /\
  (forall (tm : timer (K * P)) (w : world (K * P) E) (e : E),
      write_fails (payload tm) = Some e ->
      uncaught (fire write_fails tm w) =
        uncaught w ++ [(Z.max (now w) (due tm), e)]).
Proof.
  split; [|split].
  - intros args w. split; [apply debounced_completion|].
    by destruct (debounced_history W args w) as (-> & -> & ->).
  - intros sched. induction sched as [|c sched IH]; intros w; [done|].
    cbn [results length replicate].
    pose proof (debounced_completion
                  W c.2 (arrive write_fails call_first c.1 w)) as Hc.
    destruct (debounced W c.2 (arrive write_fails call_first c.1 w))
      as [r w'].
    cbn [fst] in Hc. by rewrite Hc, IH.
  - intros tm w e He. unfold fire. simpl. by rewrite He.
Qed.

End MutatorFacts.

(** ** The scenarios of the debounced mutator *)

Section MutatorScenarios.
Import Js Debounce Mutator Scenario.
Local Open Scope Z_scope.

(** [scheduleWrite("a", {value: 1})], then [scheduleWrite("a", {value: 2})]
    50ms later, window 250ms: by 300ms [write] has been called once, with
    [("a", {value: 2})]. *)
Lemma burst_scenario :
  writes healthy 250 timers_first
         (for_key "a" [(0, value_patch 1); (50, value_patch 2)]) 300 =
    [(300, ("a", value_patch 2))].
Proof.
  apply (burst_writes_last_patch_once healthy 250 timers_first "a" 0
           (value_patch 1) [(50, value_patch 2)] 300);
    unfold delay; simpl; lia.
Defined.

(** Keys ["b"] then ["a"], 50ms apart, window 250ms: only ["a"] is
    written. *)
Lemma shared_timer_scenario :
  writes healthy 250 timers_first
         [(0, ("b", value_patch 1)); (50, ("a", value_patch 2))] 1000 =
    [(300, ("a", value_patch 2))].
Proof.
  apply (later_call_cancels_other_key healthy 250 timers_first
           "a" "b"
           (value_patch 2) (value_patch 1) 0 50 1000); lia.
Defined.

(** Timers are not independent per key: ["b"] has a write pending when
    ["a"] is called 50ms later; the write of ["b"] is cancelled and never
    reaches [write], however long one waits. *)
Lemma independent_timers_refuted :
  "a" <> "b" /\
  pending (run (E := string) healthy 250 timers_first
             [(0, ("b", value_patch 1))] init) =
    [("b", value_patch 1)] /\
  forall T, 300 <= T ->
    ~ exists t,
        (t, ("b", value_patch 1)) ∈
          writes healthy 250 timers_first
            [(0, ("b", value_patch 1)); (50, ("a", value_patch 2))] T.
Proof.
  split; [done|]. split; [reflexivity|].
  intros T HT [t Hin].
  rewrite (second_call_wins healthy 250 timers_first ("b", value_patch 1)
             ("a", value_patch 2) 0 50 T) in Hin by lia.
  apply list_elem_of_singleton in Hin. discriminate Hin.
Qed.



(** Calls 300ms apart with a window of 250ms: one write each, on any
    host. *)
Lemma well_spaced_scenario :
  writes healthy 250 calls_first
         (for_key "a" [(0, value_patch 1); (300, value_patch 2)]) 550 =
    [(250, ("a", value_patch 1)); (550, ("a", value_patch 2))].
Proof. reflexivity. Qed.

End MutatorScenarios.
(** ** The table editors of the bond page *)

Section IndexOf.
Import Js Bond.
Local Open Scope Z_scope.

Lemma indexOf_from_range (a : list obj) (x : obj) (i : Z) :
  indexOf_from i a x = -1 \/
  i <= indexOf_from i a x < i + Z.of_nat (length a).
Proof.
  revert i. induction a as [|y a IH]; intros i; simpl; [by left|].
  destruct (bool_decide (ref y = ref x)); [right; lia|].
  destruct (IH (i + 1)) as [->|H]; [by left | right; lia].
Qed.

(** [indexOf] answers [-1] or a valid index. *)
Lemma indexOf_range (a : list obj) (x : obj) :
  -1 <= indexOf a x < Z.of_nat (length a).
Proof.
  unfold indexOf. destruct (indexOf_from_range a x 0) as [->|H]; lia.
Qed.

Lemma indexOf_from_found (a : list obj) (x : obj) (i : Z) :
  0 <= i -> i <= indexOf_from i a x ->
  exists o, a !! Z.to_nat (indexOf_from i a x - i) = Some o /\
            ref o = ref x.
Proof.
  revert i. induction a as [|y a IH]; intros i Hi; simpl; [lia|].
  destruct (bool_decide (ref y = ref x)) eqn:Hy.
  - intros _. replace (i - i) with 0 by lia. exists y.
    split; [done|]. by apply bool_decide_eq_true in Hy.
  - intros Hle.
    destruct (indexOf_from_range a x (i + 1)) as [Hm|Hr]; [lia|].
    destruct (IH (i + 1)) as (o & Ho & Href); [lia|lia|].
    exists o. split; [|done].
    replace (Z.to_nat (indexOf_from (i + 1) a x - i))
      with (S (Z.to_nat (indexOf_from (i + 1) a x - (i + 1)))) by lia.
    done.
Qed.

Lemma indexOf_found (a : list obj) (x : obj) :
  0 <= indexOf a x ->
  exists o, a !! Z.to_nat (indexOf a x) = Some o /\ ref o = ref x.
Proof.
  intros H. unfold indexOf in *.
  destruct (indexOf_from_found a x 0) as (o & Ho & Href); [lia|lia|].
  exists o. by rewrite Z.sub_0_r in Ho.
Qed.



End IndexOf.

Section SaverFacts.
Import Js Saver.
Context {K P E : Type} `{EqDecision K}.
Variable write_fails : K * P -> option E.
Variable W : Z.
Variable merge : P -> P -> P.

Local Open Scope Z_scope.

Lemma find_app_first {X : Type} (f : X -> bool) (l1 l2 : list X) :
  List.find f (l1 ++ l2) =
    match List.find f l1 with
    | Some x => Some x
    | None => List.find f l2
    end.
Proof.
  induction l1 as [|x l1 IH]; [done|]. simpl. by destruct (f x).
Qed.

Lemma find_filtered_out (k : K) (l : list (entry K P)) :
  List.find (fun e => bool_decide (key e = k))
            (List.filter (fun e => negb (bool_decide (key e = k))) l) = None.
Proof.
  induction l as [|e l IH]; [done|]. simpl.
  destruct (bool_decide (key e = k)) eqn:He; simpl; [done|].
  by rewrite He.
Qed.

Lemma find_filter_other (k k' : K) (l : list (entry K P)) :
  k' <> k ->
  List.find (fun e => bool_decide (key e = k'))
            (List.filter (fun e => negb (bool_decide (key e = k))) l) =
  List.find (fun e => bool_decide (key e = k')) l.
Proof.
  intros Hne. induction l as [|e l IH]; [done|]. simpl.
  destruct (bool_decide (key e = k)) eqn:He; simpl.
  - apply bool_decide_eq_true in He.
    rewrite bool_decide_eq_false_2 by congruence. done.
  - destruct (bool_decide (key e = k')); [done|apply IH].
Qed.

(** A call writes nothing and lets no time pass. *)
Lemma scheduleWrite_history (k : K) (p : P) (s : state K P E) :
  fst (scheduleWrite W merge k p s) = Normal VUndefined /\
  written (snd (scheduleWrite W merge k p s)) = written s /\
  reported (snd (scheduleWrite W merge k p s)) = reported s /\
  clock (snd (scheduleWrite W merge k p s)) = clock s.
Proof. done. Qed.

(** A call leaves one pending write for its key, due a window from now. *)
Lemma scheduleWrite_pending (k : K) (p : P) (s : state K P E) :
  pendingFor k (snd (scheduleWrite W merge k p s)) =
    Some (Entry k (clock s + W) (joined merge k p s)).
Proof.
  unfold pendingFor at 1. cbn [scheduleWrite snd pendingWrites].
  rewrite find_app_first, find_filtered_out. simpl.
  by rewrite bool_decide_eq_true_2.
Qed.

(** A call leaves the pending writes of the other keys alone. *)
Lemma scheduleWrite_other (k k' : K) (p : P) (s : state K P E) :
  k' <> k ->
  pendingFor k' (snd (scheduleWrite W merge k p s)) = pendingFor k' s.
Proof.
  intros Hne. unfold pendingFor. cbn [scheduleWrite snd pendingWrites].
  rewrite find_app_first, find_filter_other by done.
  destruct (List.find _ (pendingWrites s)); [done|]. simpl.
  by rewrite bool_decide_eq_false_2 by congruence.
Qed.


(** A pending write whose window has run out is written. *)
Lemma saver_flushes (T : Z) (s : state K P E) (e : entry K P) :
  e ∈ pendingWrites s -> dueAt e <= T ->
  (Z.max (clock s) (dueAt e), (key e, patch e)) ∈
    written (elapse write_fails T s).
Proof.
  intros Hin Hdue. cbn [elapse written]. apply elem_of_app. right.
  apply (list_elem_of_fmap_2
           (fun e => (Z.max (clock s) (dueAt e), (key e, patch e)))).
  apply list_elem_of_In, filter_In. split; [by apply list_elem_of_In|].
  by apply Z.leb_le.
Qed.

(** Nothing is written before its window has run out. *)
Lemma saver_waits (T : Z) (s : state K P E) :
  (forall e, e ∈ pendingWrites s -> T < dueAt e) ->
  written (elapse write_fails T s) = written s /\
  pendingWrites (elapse write_fails T s) = pendingWrites s.
Proof.
  intros Hall. cbn [elapse written pendingWrites].
  assert (Hnone : List.filter (fun e => dueAt e <=? T) (pendingWrites s)
                  = []).
  { induction (pendingWrites s) as [|e l IH]; [done|]. simpl.
    rewrite (proj2 (Z.leb_gt (dueAt e) T))
      by (apply Hall, list_elem_of_here).
    apply IH. intros x Hx. apply Hall. by apply list_elem_of_further. }
  rewrite Hnone, app_nil_r. split; [done|].
  induction (pendingWrites s) as [|e l IH]; [done|]. simpl.
  rewrite (proj2 (Z.leb_gt (dueAt e) T)) by (apply Hall, list_elem_of_here).
  simpl. f_equal. apply IH.
  - intros x Hx. apply Hall. by apply list_elem_of_further.
  - simpl in Hnone.
    rewrite (proj2 (Z.leb_gt (dueAt e) T)) in Hnone
      by (apply Hall, list_elem_of_here). done.
Qed.

End SaverFacts.

Section EditorFacts.
Import Js Saver Bond.
Context {E : Type}.
Variable write_fails : value * patch_of -> option E.
Variable remove_fails : obj -> option E.
Variable W : Z.
Variable merge : patch_of -> patch_of -> patch_of.
Variable identity : obj -> value.

Local Open Scope Z_scope.

(** What [edit] does before it returns: one update handed to React, one
    call of the saver. *)
Lemma edit_parts (log : obj) (prop : string) (v : value) (ed : editor E) :
  let out := edit W merge identity log prop v ed in
  fst out = Normal VUndefined /\
  items (snd out) = items ed /\
  queued (snd out) =
    queued ed ++ [SetItemProp (indexOf (items ed) log) prop v] /\
  nextRef (snd out) = nextRef ed /\
  deleted (snd out) = deleted ed /\
  saver (snd out) =
    snd (scheduleWrite W merge (identity log) {[ prop := v ]} (saver ed)).
Proof. done. Qed.

Lemma remove_parts (log : obj) (ed : editor E) :
  let out := remove remove_fails log ed in
  fst out =
    match remove_fails log with
    | Some e => Throw e
    | None => Normal VUndefined
    end /\
  items (snd out) = items ed /\
  queued (snd out) =
    queued ed ++
      [FilterBy (fun l => strict_ne (get l "id") (get log "id"))] /\
  nextRef (snd out) = nextRef ed /\
  deleted (snd out) = deleted ed ++ [(clock (saver ed), log)] /\
  saver (snd out) = saver ed.
Proof. cbn zeta. unfold remove. by destruct (remove_fails log). Qed.

(** The render that follows one update. *)
Lemma render_one (u : update) (ed : editor E) :
  queued ed = [u] ->
  render ed =
    match apply_update u (items ed) (nextRef ed) with
    | Some (current, fresh) =>
        Some (Editor current [] fresh (saver ed) (deleted ed))
    | None => None
    end.
Proof.
  intros Hq. unfold render. rewrite Hq. cbn [apply_updates].
  by destruct (apply_update u (items ed) (nextRef ed)) as [[l n]|].
Qed.

Lemma apply_setItemProp_found (i : nat) (o : obj) (prop : string)
    (v : value) (current : list obj) (fresh : nat) :
  current !! i = Some o ->
  apply_update (SetItemProp (Z.of_nat i) prop v) current fresh =
    Some (<[i := Obj fresh (<[prop := v]> (fields o))]> current, S fresh).
Proof.
  intros Ho. unfold apply_update.
  rewrite (proj2 (Z.ltb_ge (Z.of_nat i) 0)) by lia.
  by rewrite Nat2Z.id, Ho.
Qed.


(** C3, as the code has it.  [remove(log)] hands React the update that
    drops the rows with the id of [log] and hands the delete to the
    repository at once; it leaves the saver as it was, so every write that
    was pending, the one for [log] included, is still made when its window
    runs out, after the delete. *)
Theorem remove_keeps_pending_write
    (log : obj) (ed : editor E) (e : entry value patch_of) (T : Z) :
  e ∈ pendingWrites (saver ed) -> dueAt e <= T ->
  let out := remove remove_fails log ed in
  (queued ed = [] ->
   render (snd out) =
     Some (Editor
             (List.filter (fun l => strict_ne (get l "id") (get log "id"))
                          (items ed))
             [] (nextRef ed) (saver ed)
             (deleted ed ++ [(clock (saver ed), log)]))) /\
  deleted (snd out) = deleted ed ++ [(clock (saver ed), log)] /\
  saver (snd out) = saver ed /\
  (Z.max (clock (saver ed)) (dueAt e), (key e, patch e)) ∈
    written (saver (wait write_fails T (snd out))).
Proof.
  intros Hin HT out.
  destruct (remove_parts log ed)
    as (Hr & Hitems & Hqueued & Hnext & Hdel & Hsaver).
  fold out in Hr, Hitems, Hqueued, Hnext, Hdel, Hsaver.
  split; [|split; [done|split; [done|]]].
  - intros Hq. rewrite Hq in Hqueued. cbn [app] in Hqueued.
    rewrite (render_one _ _ Hqueued). cbn [apply_update].
    by rewrite Hitems, Hnext, Hdel, Hsaver.
  - unfold wait. cbn [saver]. rewrite Hsaver.
    by apply saver_flushes.
Qed.

Lemma filter_all_kept {X : Type} (keep : X -> bool) (l : list X) :
  (forall x, x ∈ l -> keep x = true) -> List.filter keep l = l.
Proof.
  induction l as [|x l IH]; intros H; [done|]. simpl.
  rewrite (H x) by apply list_elem_of_here. f_equal. apply IH.
  intros y Hy. apply H. by apply list_elem_of_further.
Qed.

(** C8, as the code has it.  For a row object that is not in the list,
    [edit] (and [onBondConfigEdit]) returns normally, the next render
    leaves the list as it was, and the debounced write is registered all
    the same; [remove] of a row whose id no element carries leaves the
    list as it was at the next render, still hands the delete to the
    repository, and fails only if the repository does. *)
Theorem unknown_row_is_not_reported
    (log : obj) (prop : string) (v : value) (ed : editor E) :
  queued ed = [] ->
  indexOf (items ed) log = -1 ->
  (forall l, l ∈ items ed -> get l "id" <> get log "id") ->
  (fst (edit W merge identity log prop v ed) = Normal VUndefined /\
   (exists ed',
       render (snd (edit W merge identity log prop v ed)) = Some ed' /\
       items ed' = items ed) /\
   pendingFor (identity log)
              (saver (snd (edit W merge identity log prop v ed))) =
     Some (Entry (identity log) (clock (saver ed) + W)
                 (joined merge (identity log) {[ prop := v ]} (saver ed))) /\
   onBondConfigEdit W merge identity log prop v ed =
     edit W merge identity log prop v ed) /\
  ((exists ed',
       render (snd (remove remove_fails log ed)) = Some ed' /\
       items ed' = items ed) /\
   deleted (snd (remove remove_fails log ed)) =
     deleted ed ++ [(clock (saver ed), log)] /\
   fst (remove remove_fails log ed) =
     match remove_fails log with
     | Some e => Throw e
     | None => Normal VUndefined
     end).
Proof.
  intros Hq Hidx Hids. split.
  - destruct (edit_parts log prop v ed)
      as (Hr & Hitems & Hqueued & Hnext & Hdel & Hsaver).
    split; [done|]. split; [|split; [|done]].
    + rewrite Hq, Hidx in Hqueued. cbn [app] in Hqueued.
      eexists. split; [by rewrite (render_one _ _ Hqueued)|].
      cbn [items]. exact Hitems.
    + rewrite Hsaver. apply scheduleWrite_pending.
  - destruct (remove_parts log ed)
      as (Hr & Hitems & Hqueued & Hnext & Hdel & Hsaver).
    split; [|split; [done|done]].
    rewrite Hq in Hqueued. cbn [app] in Hqueued.
    eexists. split; [by rewrite (render_one _ _ Hqueued)|].
    cbn [items]. rewrite Hitems. apply filter_all_kept.
    intros l Hl. unfold strict_ne, strict_eq.
    apply negb_true_iff, bool_decide_eq_false. by apply Hids.
Qed.

End EditorFacts.

Section EditorScenarios.
Import Js Saver Bond Scenario.
Local Open Scope Z_scope.



(** [remove] cancels nothing.  [edited_page] is the page 50ms after
    [edit(row7, "value", 5)] and its render, the write pending; [remove] is
    called on the row shown: at the next render the row has left the list,
    the delete was issued at 50ms, yet the write is still pending and is
    made at 250ms. *)
Lemma remove_cancels_refuted :
  let out := remove healthy row7_edited edited_page in
  render (wait healthy 50
            (snd (edit 250 replace_patch by_id row7 "value" (VNum 5)
                       (loaded [row7] 3)))) = Some edited_page /\
  pendingWrites (saver edited_page) = [Entry (VNum 7) 250 (value_patch 5)] /\
  fst out = Normal VUndefined /\
  (exists ed', render (snd out) = Some ed' /\ items ed' = []) /\
  deleted (snd out) = [(50, row7_edited)] /\
  pendingWrites (saver (snd out)) = [Entry (VNum 7) 250 (value_patch 5)] /\
  written (saver (wait healthy 1000 (snd out))) =
    [(250, (VNum 7, value_patch 5))].
Proof.
  cbn zeta. split; [reflexivity|]. split; [reflexivity|].
  split; [reflexivity|]. split; [eexists; split; reflexivity|].
  repeat split.
Qed.

Lemma remove_scenario :
  let out := remove healthy row7_edited edited_page in
  (queued edited_page = [] ->
   render (snd out) =
     Some (Editor
             (List.filter
                (fun l => strict_ne (get l "id") (get row7_edited "id"))
                (items edited_page))
             [] (nextRef edited_page) (saver edited_page)
             (deleted edited_page ++ [(50, row7_edited)]))) /\
  deleted (snd out) = deleted edited_page ++ [(50, row7_edited)] /\
  saver (snd out) = saver edited_page /\
  (Z.max 50 250, (VNum 7, value_patch 5)) ∈
    written (saver (wait healthy 1000 (snd out))).
Proof.
  apply (remove_keeps_pending_write healthy healthy row7_edited edited_page
           (Entry (VNum 7) 250 (value_patch 5)) 1000).
  - apply list_elem_of_here.
  - simpl. lia.
Defined.

(** No NotFound failure: [stray] is not in the list, yet [edit] and
    [remove] return normally and the next render shows the list as it
    was. *)
Lemma not_found_refuted :
  let ed := loaded (E := string) [row7] 3 in
  let out := edit 250 replace_patch by_id stray "value" (VNum 5) ed in
  let out' := remove healthy stray ed in
  indexOf (items ed) stray = -1 /\
  (forall l, l ∈ items ed -> get l "id" <> get stray "id") /\
  fst out = Normal VUndefined /\
  (exists ed', render (snd out) = Some ed' /\ items ed' = items ed) /\
  fst out' = Normal VUndefined /\
  (exists ed', render (snd out') = Some ed' /\ items ed' = items ed).
Proof.
  cbn zeta. split; [reflexivity|]. split.
  - intros l Hl. apply list_elem_of_singleton in Hl as ->.
    vm_compute. discriminate.
  - split; [reflexivity|]. split; [eexists; split; reflexivity|].
    split; [reflexivity|]. eexists; split; reflexivity.
Qed.

Lemma unknown_row_scenario :
  let ed := loaded (E := string) [row7] 3 in
  (fst (edit 250 replace_patch by_id stray "value" (VNum 5) ed)
     = Normal VUndefined /\
   (exists ed',
       render (snd (edit 250 replace_patch by_id stray "value" (VNum 5) ed))
         = Some ed' /\
       items ed' = items ed) /\
   pendingFor (by_id stray)
     (saver (snd (edit 250 replace_patch by_id stray "value" (VNum 5) ed))) =
     Some (Entry (by_id stray) (0 + 250)
                 (joined replace_patch (by_id stray) {[ "value" := VNum 5 ]}
                         (saver ed))) /\
   onBondConfigEdit 250 replace_patch by_id stray "value" (VNum 5) ed =
     edit 250 replace_patch by_id stray "value" (VNum 5) ed) /\
  ((exists ed',
       render (snd (remove broken stray ed)) = Some ed' /\
       items ed' = items ed) /\
   deleted (snd (remove broken stray ed)) = [] ++ [(0, stray)] /\
   fst (remove broken stray ed) = Throw "SQLITE_ERROR").
Proof.
  apply (unknown_row_is_not_reported broken 250 replace_patch by_id
           stray "value" (VNum 5) (loaded [row7] 3)).
  - reflexivity.
  - reflexivity.
  - intros l Hl. apply list_elem_of_singleton in Hl as ->.
    vm_compute. discriminate.
Defined.

End EditorScenarios.

(** ** [findLastIndex] *)

Section FindLastFacts.
Import FindLast.
Context {T : Type}.
Variable array : list T.

Local Open Scope Z_scope.

Lemma loop_step (predicate : T -> Z -> list T -> bool) (n : nat) :
  loop array predicate (S n) =
    if holds array predicate (S n) then Z.of_nat (S n)
    else loop array predicate n.
Proof.
  unfold holds. cbn [loop]. by destruct (array !! S n).
Qed.

(** The loop reads slots of the array only. *)
Lemma loop_in_range (n : nat) :
  (n < length array)%nat -> is_Some (array !! n).
Proof. apply lookup_lt_is_Some_2. Qed.

Lemma loop_spec (predicate : T -> Z -> list T -> bool) (n : nat) :
  (loop array predicate n = -1 /\
   forall j, (1 <= j <= n)%nat -> holds array predicate j = false) \/
  (exists i : nat,
      loop array predicate n = Z.of_nat i /\ (1 <= i <= n)%nat /\
      holds array predicate i = true /\
      forall j, (i < j <= n)%nat -> holds array predicate j = false).
Proof.
  induction n as [|n IH].
  - left. split; [done|]. intros j Hj. lia.
  - rewrite loop_step.
    destruct (holds array predicate (S n)) eqn:Hn.
    + right. exists (S n). repeat split; [lia|lia|done|]. intros j Hj. lia.
    + destruct IH as [[Hm Hall]|(i & Hi & Hr & Hh & Hall)].
      * left. split; [done|]. intros j Hj.
        destruct (decide (j = S n)) as [->|Hne]; [done|]. apply Hall. lia.
      * right. exists i. repeat split; [done|lia|lia|done|].
        intros j Hj.
        destruct (decide (j = S n)) as [->|Hne]; [done|]. apply Hall. lia.
Qed.

Lemma loop_ext (p q : T -> Z -> list T -> bool) (n : nat) :
  (forall x j a, j <> 0 -> p x j a = q x j a) ->
  loop array p n = loop array q n.
Proof.
  intros Hpq. induction n as [|n IH]; [done|].
  cbn [loop]. destruct (array !! S n); [|done].
  rewrite IH, (Hpq t (Z.of_nat (S n)) array) by lia. done.
Qed.

(** C9.  [findLastIndex] answers the largest index from 1 upwards at
    which the predicate holds, and [-1] when there is none; the element
    at index 0 is not examined: the answer does not depend on the
    predicate there, and it is [-1] when index 0 alone satisfies it. *)
Theorem findLastIndex_skips_index_zero
    (predicate : T -> Z -> list T -> bool) :
  ((findLastIndex array predicate = -1 /\
    forall j, (1 <= j < length array)%nat ->
              holds array predicate j = false) \/
   (exists i : nat,
       findLastIndex array predicate = Z.of_nat i /\
       (1 <= i < length array)%nat /\
       holds array predicate i = true /\
       forall j, (i < j < length array)%nat ->
                 holds array predicate j = false)) /\
  (forall q : T -> Z -> list T -> bool,
      (forall x j a, j <> 0 -> predicate x j a = q x j a) ->
      findLastIndex array predicate = findLastIndex array q) /\
  ((forall j, (1 <= j < length array)%nat ->
              holds array predicate j = false) ->
   findLastIndex array predicate = -1).
Proof.
  set (n := Z.to_nat (Z.of_nat (length array) - 1)).
  assert (Hn : forall j, (j <= n)%nat <-> (j < length array)%nat \/ j = 0%nat)
    by (intros j; subst n; lia).
  assert (Hchar := loop_spec predicate n).
  fold (findLastIndex array predicate) in Hchar.
  split; [|split].
  - destruct Hchar as [[Hm Hall]|(i & Hi & Hr & Hh & Hall)].
    + left. split; [done|]. intros j Hj. apply Hall.
      split; [lia|]. apply Hn. lia.
    + right. exists i. split; [done|].
      assert (Hi' : (i < length array)%nat).
      { destruct (proj1 (Hn i)) as [?|?]; lia. }
      repeat split; [lia|done|done|].
      intros j Hj. apply Hall. split; [lia|]. apply Hn. lia.
  - intros q Hq. by apply loop_ext.
  - intros Hnone.
    destruct Hchar as [[Hm _]|(i & Hi & Hr & Hh & _)]; [done|].
    rewrite Hnone in Hh; [done|].
    destruct (proj1 (Hn i)) as [?|?]; lia.
Qed.

End FindLastFacts.

(** ** [getCircularReplacer] *)

Section ReplacerFacts.
Import Js Replacer.

Lemma is_object_obj (v : value) :
  is_object v = true <-> exists r, v = VObj r.
Proof.
  split.
  - destruct v; try done. by exists r.
  - by intros [r ->].
Qed.

Lemma replacer_primitive (k v : value) (seen : gset nat) :
  is_object v = false -> replacer k v seen = (v, seen).
Proof. intros H. unfold replacer. by rewrite H. Qed.

Lemma replacer_first (k : value) (r : nat) (seen : gset nat) :
  r ∉ seen -> replacer k (VObj r) seen = (VObj r, {[ r ]} ∪ seen).
Proof.
  intros H. unfold replacer. simpl. by rewrite bool_decide_eq_false_2.
Qed.

Lemma replacer_again (k : value) (r : nat) (seen : gset nat) :
  r ∈ seen -> replacer k (VObj r) seen = (VUndefined, seen).
Proof.
  intros H. unfold replacer. simpl. by rewrite bool_decide_eq_true_2.
Qed.

Lemma dropped_obj (seen : gset nat) (before : list value) (r : nat) :
  dropped seen before (VObj r) =
    bool_decide (r ∈ seen) || bool_decide (VObj r ∈ before).
Proof. reflexivity. Qed.

Lemma dropped_primitive (seen : gset nat) (before : list value) (v : value) :
  is_object v = false -> dropped seen before v = false.
Proof. intros H. unfold dropped. by rewrite H. Qed.

Lemma dropped_ext (seen seen' : gset nat) (before before' : list value) :
  (forall r, r ∈ seen \/ VObj r ∈ before <->
             r ∈ seen' \/ VObj r ∈ before') ->
  forall v, dropped seen before v = dropped seen' before' v.
Proof.
  intros H v. destruct (is_object v) eqn:Hobj.
  - apply is_object_obj in Hobj as [r ->]. rewrite !dropped_obj.
    rewrite <- !bool_decide_or. apply bool_decide_ext, H.
  - by rewrite !dropped_primitive.
Qed.

(** Every call of a replacer, told from the set it started with and the
    values passed before. *)
Lemma replace_all_from (kvs : list (value * value)) (seen : gset nat) :
  replace_all kvs seen =
    imap (fun i kv =>
            if dropped seen (take i kvs.*2) kv.2 then VUndefined else kv.2)
         kvs.
Proof.
  revert seen. induction kvs as [|[k v] kvs IH]; intros seen; [done|].
  cbn [replace_all]. rewrite imap_cons. cbn [take fmap list_fmap snd].
  assert (Hrest : forall seen',
    (forall r, r ∈ seen' <-> r ∈ seen \/ v = VObj r) ->
    replace_all kvs seen' =
      imap ((fun i kv =>
               if dropped seen (take i (v :: kvs.*2)) kv.2
               then VUndefined else kv.2) ∘ S) kvs).
  { intros seen' Hseen. rewrite IH. apply imap_ext. intros i [k' v'] _.
    cbn [compose snd take].
    rewrite (dropped_ext seen' seen (take i kvs.*2) (v :: take i kvs.*2));
      [done|].
    intros r. rewrite elem_of_cons, Hseen.
    assert (v = VObj r <-> VObj r = v) by (split; congruence). tauto. }
  destruct (is_object v) eqn:Hobj.
  - apply is_object_obj in Hobj as [r ->]. rewrite dropped_obj.
    rewrite (bool_decide_eq_false_2 (VObj r ∈ [])) by apply not_elem_of_nil.
    rewrite orb_false_r.
    destruct (decide (r ∈ seen)) as [Hin|Hnin].
    + rewrite replacer_again, bool_decide_eq_true_2 by done.
      f_equal. apply Hrest. intros r'. split; [by left|].
      intros [?|[= ->]]; done.
    + rewrite replacer_first, bool_decide_eq_false_2 by done.
      f_equal. apply Hrest. intros r'.
      rewrite elem_of_union, elem_of_singleton.
      split; [intros [->|?]; auto | intros [?|[= ->]]; auto].
  - rewrite replacer_primitive, dropped_primitive by done.
    f_equal. apply Hrest. intros r'. split; [by left|].
    intros [?|Hv]; [done|]. by rewrite Hv in Hobj.
Qed.

(** C10.  The replacer hands back every value that is not a non-null
    object, and an object the first time it is passed; an object passed
    again comes out as [undefined], whether or not it lies on a cycle:
    for [{a: o, b: o}] the second [o] is dropped. *)
Theorem replacer_drops_repeated_objects :
  (forall v, is_object v = true <-> exists r, v = VObj r) /\
  (forall k v seen, is_object v = false -> replacer k v seen = (v, seen)) /\
  (forall k r seen,
      r ∉ seen -> replacer k (VObj r) seen = (VObj r, {[ r ]} ∪ seen)) /\
  (forall k r seen,
      r ∈ seen -> replacer k (VObj r) seen = (VUndefined, seen)) /\
  (forall kvs : list (value * value),
      replace_all kvs fresh_seen =
        imap (fun i kv =>
                if is_object kv.2 && bool_decide (kv.2 ∈ take i kvs.*2)
                then VUndefined else kv.2)
             kvs) /\
  replace_all [(VStr "", VObj 1); (VStr "a", VObj 2); (VStr "b", VObj 2)]
              fresh_seen =
    [VObj 1; VObj 2; VUndefined].
Proof.
  split; [exact is_object_obj|].
  split; [exact replacer_primitive|].
  split; [exact replacer_first|].
  split; [exact replacer_again|].
  split; [|reflexivity].
  intros kvs. rewrite replace_all_from. apply imap_ext.
  intros i [k v] _. cbn [snd]. unfold dropped, fresh_seen.
  destruct (is_object v) eqn:Hobj; [|done].
  apply is_object_obj in Hobj as [r ->]. cbn [has andb].
  by rewrite (bool_decide_eq_false_2 (r ∈ (∅ : gset nat)))
    by apply not_elem_of_empty.
Qed.

End ReplacerFacts.

(** ** [debounce] on arbitrary schedules and histories *)

Section TrailingFacts.
Import Js Debounce Trailing.
Context {A E : Type}.
Variable fn_throws : A -> option E.
Variable ms : Z.
Variable call_first : nat -> Z -> bool.

Local Open Scope Z_scope.

Lemma armed_early (t T : Z) (a : A) (log : list (Z * A)) (w : world A E) :
  armed ms t a log w -> T < t + delay ms ->
  calls (elapse fn_throws T w) = log.
Proof.
  intros (id & Hq & Hid & Hlog & Hnow) HT.
  by rewrite (elapse_early fn_throws T w _ Hq) by (simpl; lia).
Qed.



Lemma exec_snoc (history : list (action (A := A))) (a : action)
    (w : world A E) :
  exec fn_throws ms (history ++ [a]) w =
    act fn_throws ms (exec fn_throws ms history w) a.
Proof. unfold exec. by rewrite foldl_app. Qed.

Lemma call_args_app (h1 h2 : list (action (A := A))) :
  call_args (h1 ++ h2) = call_args h1 ++ call_args h2.
Proof.
  induction h1 as [|[args|t] h1 IH]; simpl; [done| |done]. by rewrite IH.
Qed.

(** X2.  Whatever the history of calls and waits, [fn] is only invoked
    with arguments some call was made with, and the invocations made plus
    the one still pending never outnumber the calls. *)
Theorem debounce_never_invents_calls (history : list (action (A := A))) :
  let w := exec fn_throws ms history init in
  (forall t a, (t, a) ∈ calls w -> a ∈ call_args history) /\
  (forall a, a ∈ pending w -> a ∈ call_args history) /\
  (length (calls w) + length (pending w) <= length (call_args history))%nat.
Proof.
  induction history as [|a history IH] using rev_ind.
  - cbn. split; [|split; [|lia]]; intros *; by rewrite elem_of_nil.
  - cbn zeta in *. rewrite exec_snoc, call_args_app.
    set (w := exec fn_throws ms history init) in *.
    assert (Ht : tidy w) by (apply exec_tidy, init_tidy).
    destruct IH as (Hc & Hp & Hlen). rewrite length_app.
    destruct a as [args|t]; cbn [act call_args length].
    + destruct (debounced_tidy ms args w Ht) as [Hq _].
      destruct (debounced_history ms args w) as (Hcalls & _).
      unfold pending in *. rewrite Hq, Hcalls.
      cbn [fmap list_fmap length payload].
      split; [|split; [|lia]].
      * intros t a Hin. apply elem_of_app. left. by apply (Hc t).
      * intros a Hin. apply list_elem_of_singleton in Hin as ->.
        apply elem_of_app. right. apply list_elem_of_here.
    + rewrite app_nil_r. unfold tidy in Ht. unfold pending in *.
      destruct (queue w) as [|tm [|tm' q]] eqn:Hq; [| |done].
      * rewrite elapse_idle by done. cbn [calls queue].
        split; [done|split; [done|simpl in *; lia]].
      * destruct Ht as [Hid Hnow].
        destruct (Z_lt_le_dec t (due tm)) as [Hlt|Hle].
        -- rewrite (elapse_early fn_throws t w tm Hq Hlt). cbn [calls queue].
           split; [done|split; [done|simpl in *; lia]].
        -- rewrite (elapse_flush fn_throws t w tm Hq Hnow Hle).
           cbn [calls queue fmap list_fmap length].
           split; [|split].
           ++ intros t0 a Hin. apply elem_of_app in Hin as [Hin|Hin].
              ** by apply (Hc t0).
              ** apply list_elem_of_singleton in Hin as [= -> ->].
                 apply Hp. apply list_elem_of_here.
           ++ intros a Hin. by apply elem_of_nil in Hin.
           ++ rewrite length_app. simpl in *. lia.
Qed.

End TrailingFacts.

(** ** [filterUnique] and [uniqueOnProp] *)

Section FirstsFacts.
Import Js Unique.
Context {T K : Type} `{StrictEq K}.
Variable key : T -> K.

Local Open Scope Z_scope.

Lemma findIndex_from_skip (p : T -> bool) (pre l : list T) (i : Z) :
  (forall y, y ∈ pre -> p y = false) ->
  findIndex_from i p (pre ++ l) =
    findIndex_from (i + Z.of_nat (length pre)) p l.
Proof.
  revert i. induction pre as [|y pre IH]; intros i Hpre; simpl.
  - by rewrite Z.add_0_r.
  - rewrite (Hpre y) by apply list_elem_of_here.
    rewrite IH by (intros z Hz; apply Hpre; by apply list_elem_of_further).
    f_equal. lia.
Qed.

Lemma findIndex_from_hit (p : T -> bool) (pre l : list T) (i : Z) :
  (exists y, y ∈ pre /\ p y = true) ->
  findIndex_from i p (pre ++ l) < i + Z.of_nat (length pre).
Proof.
  revert i. induction pre as [|y pre IH]; intros i (z & Hz & Hp).
  - by apply elem_of_nil in Hz.
  - simpl. destruct (p y) eqn:Hy; [lia|].
    apply elem_of_cons in Hz as [->|Hz]; [congruence|].
    specialize (IH (i + 1) (ex_intro _ z (conj Hz Hp))). lia.
Qed.

Lemma findIndex_from_bounds (p : T -> bool) (l : list T) (i : Z) :
  findIndex_from i p l = -1 \/ i <= findIndex_from i p l.
Proof.
  revert i. induction l as [|y l IH]; intros i; simpl; [by left|].
  destruct (p y); [right; lia|]. destruct (IH (i + 1)); [by left|right; lia].
Qed.

Lemma existsb_elem {X : Type} (p : X -> bool) (l : list X) :
  existsb p l = true <-> exists y, y ∈ l /\ p y = true.
Proof.
  rewrite existsb_exists. split; intros (y & Hy & Hp); exists y;
    (split; [by apply list_elem_of_In|done]).
Qed.

Lemma existsb_none {X : Type} (p : X -> bool) (l : list X) :
  existsb p l = false <-> forall y, y ∈ l -> p y = false.
Proof.
  split.
  - intros Hf y Hy. destruct (p y) eqn:Hp; [|done].
    rewrite <- Hf. symmetry. apply existsb_elem. by exists y.
  - intros Hall. destruct (existsb p l) eqn:He; [|done].
    apply existsb_elem in He as (y & Hy & Hp). by rewrite (Hall y Hy) in Hp.
Qed.

(** [findIndex] stops at an index exactly when the callback holds there
    and nowhere before. *)
Lemma first_index_callback (p : T -> bool) (pre l : list T) (x : T) :
  bool_decide (findIndex p (pre ++ x :: l) = Z.of_nat (length pre)) =
    p x && negb (existsb p pre).
Proof.
  unfold findIndex. destruct (existsb p pre) eqn:Hpre.
  - rewrite andb_false_r. apply bool_decide_eq_false_2.
    apply existsb_elem in Hpre.
    pose proof (findIndex_from_hit p pre (x :: l) 0 Hpre). lia.
  - rewrite andb_true_r. rewrite findIndex_from_skip
      by (by apply existsb_none).
    simpl. destruct (p x).
    + by apply bool_decide_eq_true_2.
    + apply bool_decide_eq_false_2.
      destruct (findIndex_from_bounds p l (0 + Z.of_nat (length pre) + 1));
        lia.
Qed.

(** A filter whose callback is "my key is first found at my own index"
    keeps the first occurrences. *)
Lemma filter_from_firsts (callback : T -> Z -> list T -> bool)
    (pre l : list T) :
  (forall pre' x l',
      callback x (Z.of_nat (length pre')) (pre' ++ x :: l') =
        same (key x) (key x)
        && negb (existsb (fun k => same k (key x)) (key <$> pre'))) ->
  filter_from callback (pre ++ l) (Z.of_nat (length pre)) l =
    firsts key (key <$> pre) l.
Proof.
  intros Hcb. revert pre. induction l as [|x l IH]; intros pre; [done|].
  cbn [filter_from firsts]. rewrite Hcb.
  replace (Z.of_nat (length pre) + 1) with (Z.of_nat (length (pre ++ [x])))
    by (rewrite length_app; simpl; lia).
  replace (pre ++ x :: l) with ((pre ++ [x]) ++ l) by (by rewrite <- app_assoc).
  rewrite IH, fmap_app. done.
Qed.

Lemma existsb_fmap {X Y : Type} (f : X -> Y) (p : Y -> bool) (l : list X) :
  existsb p (f <$> l) = existsb (fun x => p (f x)) l.
Proof.
  induction l as [|x l IH]; [done|].
  rewrite fmap_cons. cbn [existsb]. by rewrite IH.
Qed.

(** What is kept is equal to itself and to nothing seen before. *)
Lemma firsts_fresh (seen : list K) (l : list T) (x : T) :
  x ∈ firsts key seen l ->
  x ∈ l /\ same (key x) (key x) = true /\
  forall k, k ∈ seen -> same k (key x) = false.
Proof.
  revert seen. induction l as [|y l IH]; intros seen; simpl.
  - intros Hx. by apply elem_of_nil in Hx.
  - assert (Hrest : x ∈ firsts key (seen ++ [key y]) l ->
              x ∈ y :: l /\ same (key x) (key x) = true /\
              forall k, k ∈ seen -> same k (key x) = false).
    { intros Hx. destruct (IH _ Hx) as (Hin & Hself & Hseen).
      split; [by apply list_elem_of_further|]. split; [done|].
      intros k Hk. apply Hseen, elem_of_app. by left. }
    destruct (same (key y) (key y)) eqn:Hy; simpl; [|done].
    destruct (existsb (fun k => same k (key y)) seen) eqn:Hs; simpl; [done|].
    intros Hx. apply elem_of_cons in Hx as [->|Hx]; [|by apply Hrest].
    split; [apply list_elem_of_here|]. split; [done|].
    by apply existsb_none.
Qed.

Lemma firsts_sublist (seen : list K) (l : list T) :
  firsts key seen l `sublist_of` l.
Proof.
  revert seen. induction l as [|y l IH]; intros seen; simpl; [done|].
  destruct (same (key y) (key y)
            && negb (existsb (fun k => same k (key y)) seen)).
  - apply sublist_skip. apply IH.
  - apply sublist_cons. apply IH.
Qed.

(** What is kept is equal to nothing kept later. *)
Lemma firsts_pairs (seen : list K) (l : list T) :
  ForallOrdPairs (fun x y => same (key x) (key y) = false)
                 (firsts key seen l).
Proof.
  revert seen. induction l as [|y l IH]; intros seen; simpl; [constructor|].
  destruct (same (key y) (key y)
            && negb (existsb (fun k => same k (key y)) seen)); [|apply IH].
  constructor; [|apply IH].
  apply List.Forall_forall. intros z Hz. apply list_elem_of_In in Hz.
  apply firsts_fresh in Hz as (_ & _ & Hseen).
  apply Hseen, elem_of_app. right. apply list_elem_of_here.
Qed.

Lemma firsts_distinct (seen : list K) (l : list T) :
  distinct key (firsts key seen l).
Proof.
  split; [|apply firsts_pairs].
  apply Forall_forall. intros x Hx. by apply firsts_fresh in Hx as (_ & ? & _).
Qed.

(** Filtering what was kept, having seen no more than before, keeps all
    of it. *)
Lemma firsts_again (seen seen' : list K) (l : list T) :
  (forall k, k ∈ seen' -> k ∈ seen) ->
  firsts key seen' (firsts key seen l) = firsts key seen l.
Proof.
  revert seen seen'. induction l as [|y l IH]; intros seen seen' Hsub; [done|].
  cbn [firsts].
  assert (Hgrow : forall k, k ∈ seen' ++ [key y] -> k ∈ seen ++ [key y]).
  { intros k. rewrite !elem_of_app.
    intros [?|?]; [left; by apply Hsub|by right]. }
  destruct (same (key y) (key y)) eqn:Hy; simpl.
  - destruct (existsb (fun k => same k (key y)) seen) eqn:Hs; simpl.
    + apply IH. intros k Hk. apply elem_of_app. left. by apply Hsub.
    + rewrite Hy. simpl.
      assert (Hs' : existsb (fun k => same k (key y)) seen' = false).
      { apply existsb_none. intros k Hk.
        by apply (proj1 (existsb_none _ seen) Hs), Hsub. }
      rewrite Hs'. simpl. f_equal. by apply IH.
  - apply IH. intros k Hk. apply elem_of_app. left. by apply Hsub.
Qed.

(** A list that is already distinct is kept whole. *)
Lemma firsts_id (seen : list K) (l : list T) :
  distinct key l ->
  (forall k x, k ∈ seen -> x ∈ l -> same k (key x) = false) ->
  firsts key seen l = l.
Proof.
  revert seen. induction l as [|y l IH]; intros seen [Hself Hpairs] Hs;
    [done|].
  apply Forall_cons in Hself as [Hy Hself].
  inversion Hpairs as [|? ? Hlater Hpairs']; subst.
  cbn [firsts]. rewrite Hy. simpl.
  assert (Hnone : existsb (fun k => same k (key y)) seen = false).
  { apply existsb_none. intros k Hk. apply Hs; [done|apply list_elem_of_here]. }
  rewrite Hnone. simpl. f_equal. apply IH; [by split|].
  intros k x Hk Hx. apply elem_of_app in Hk as [Hk|Hk].
  - apply Hs; [done|by apply list_elem_of_further].
  - apply list_elem_of_singleton in Hk as ->.
    rewrite List.Forall_forall in Hlater. apply Hlater.
    by apply list_elem_of_In.
Qed.

(** An element equal to nothing before it is kept. *)
Lemma firsts_first (seen : list K) (pre post : list T) (x : T) :
  same (key x) (key x) = true ->
  (forall k, k ∈ seen -> same k (key x) = false) ->
  (forall y, y ∈ pre -> same (key y) (key x) = false) ->
  x ∈ firsts key seen (pre ++ x :: post).
Proof.
  intros Hself. revert seen.
  induction pre as [|y pre IH]; intros seen Hs Hpre; simpl.
  - rewrite Hself. simpl.
    rewrite (proj2 (existsb_none _ seen)) by done. apply list_elem_of_here.
  - assert (Hin : x ∈ firsts key (seen ++ [key y]) (pre ++ x :: post)).
    { apply IH.
      - intros k Hk. apply elem_of_app in Hk as [Hk|Hk]; [by apply Hs|].
        apply list_elem_of_singleton in Hk as ->.
        apply Hpre, list_elem_of_here.
      - intros z Hz. by apply Hpre, list_elem_of_further. }
    destruct (same (key y) (key y)
              && negb (existsb (fun k => same k (key y)) seen)); [|done].
    by apply list_elem_of_further.
Qed.

(** With a symmetric and transitive equality, every self-equal key of the
    list is represented among what is kept. *)
Lemma firsts_covers (seen : list K) (l : list T) (x : T) :
  (forall a b : K, same a b = same b a) ->
  (forall a b c : K, same a b = true -> same b c = true -> same a c = true) ->
  x ∈ l -> same (key x) (key x) = true ->
  (exists k, k ∈ seen /\ same k (key x) = true) \/
  (exists y, y ∈ firsts key seen l /\ same (key y) (key x) = true).
Proof.
  intros Hsym Htrans. revert seen.
  induction l as [|z l IH]; intros seen Hx Hself.
  - by apply elem_of_nil in Hx.
  - cbn [firsts].
    destruct (same (key z) (key z)
              && negb (existsb (fun k => same k (key z)) seen)) eqn:Hz.
    + apply elem_of_cons in Hx as [->|Hx].
      * right. exists z. split; [apply list_elem_of_here|done].
      * destruct (IH (seen ++ [key z]) Hx Hself)
          as [(k & Hk & Hkx)|(y & Hy & Hyx)].
        -- apply elem_of_app in Hk as [Hk|Hk]; [left; by exists k|].
           apply list_elem_of_singleton in Hk as ->.
           right. exists z. split; [apply list_elem_of_here|done].
        -- right. exists y. split; [by apply list_elem_of_further|done].
    + assert (Hseen : forall k', same k' (key z) = true ->
                same (key z) (key z) = true ->
                exists k, k ∈ seen /\ same k (key z) = true).
      { intros k' _ Hzz. rewrite Hzz in Hz. simpl in Hz.
        apply negb_false_iff, existsb_elem in Hz. done. }
      apply elem_of_cons in Hx as [->|Hx].
      * left. by apply (Hseen (key z)).
      * destruct (IH (seen ++ [key z]) Hx Hself)
          as [(k & Hk & Hkx)|(y & Hy & Hyx)]; [|right; by exists y].
        apply elem_of_app in Hk as [Hk|Hk]; [left; by exists k|].
        apply list_elem_of_singleton in Hk as ->.
        assert (Hzz : same (key z) (key z) = true).
        { apply (Htrans _ (key x)); [done|]. by rewrite Hsym. }
        destruct (Hseen (key z) Hzz Hzz) as (k & Hk & Hkz).
        left. exists k. split; [done|]. by apply (Htrans _ (key z)).
Qed.

End FirstsFacts.

Section UniqueFacts.
Import Js Unique.
Context {T K : Type} `{StrictEq T} `{StrictEq K}.

Local Open Scope Z_scope.

Lemma filterUnique_firsts (array : list T) :
  array_filter filterUnique array = firsts id [] array.
Proof.
  unfold array_filter.
  apply (filter_from_firsts id filterUnique [] array).
  intros pre x l. unfold filterUnique, indexOf.
  rewrite first_index_callback. by rewrite list_fmap_id.
Qed.

Lemma uniqueOnProp_firsts (read : T -> string -> K) (prop : string)
    (array : list T) :
  array_filter (uniqueOnProp read prop) array =
    firsts (fun o => read o prop) [] array.
Proof.
  unfold array_filter.
  apply (filter_from_firsts (fun o => read o prop) (uniqueOnProp read prop)
           [] array).
  intros pre x l. unfold uniqueOnProp.
  rewrite first_index_callback. by rewrite existsb_fmap.
Qed.



(** X4.  Filtering with [filterUnique] a second time changes nothing, and
    the arrays the filter returns as they are, are those whose elements
    are equal to themselves and to no later element. *)
Theorem filterUnique_idempotent (array : list T) :
  array_filter filterUnique (array_filter filterUnique array) =
    array_filter filterUnique array /\
  (array_filter filterUnique array = array <-> distinct id array).
Proof.
  rewrite !filterUnique_firsts. split; [by apply firsts_again|]. split.
  - intros <-. apply firsts_distinct.
  - intros Hd. apply firsts_id; [done|].
    intros k x Hk. by apply elem_of_nil in Hk.
Qed.

(** X5.  On a dense array of objects, [array.filter(uniqueOnProp(prop))]
    keeps, for each value of [prop] that is strictly equal to itself, the
    first object that carries it, and nothing else: the result is a
    subsequence of the array, no two objects of it have equal values of
    [prop], every self-equal value of [prop] in the array is equal to that
    of an object of the result, an object whose value of [prop] is not
    equal to itself ([NaN]) is dropped, and an object none of whose
    predecessors has its (self-equal) value of [prop] is kept. *)
Theorem uniqueOnProp_keeps_first_per_value (read : T -> string -> K)
    (prop : string) (array : list T) :
  (forall a b : K, same a b = same b a) ->
  (forall a b c : K, same a b = true -> same b c = true -> same a c = true) ->
  let r := array_filter (uniqueOnProp read prop) array in
  r `sublist_of` array /\
  distinct (fun o => read o prop) r /\
  (forall x, x ∈ array -> same (read x prop) (read x prop) = true ->
             exists y, y ∈ r /\ same (read y prop) (read x prop) = true) /\
  (forall x, same (read x prop) (read x prop) = false -> x ∉ r) /\
  (forall pre x post,
      array = pre ++ x :: post ->
      same (read x prop) (read x prop) = true ->
      (forall y, y ∈ pre -> same (read y prop) (read x prop) = false) ->
      x ∈ r).
Proof.
  intros Hsym Htrans. cbn zeta. rewrite uniqueOnProp_firsts.
  split; [apply firsts_sublist|]. split; [apply firsts_distinct|].
  split; [|split].
  - intros x Hx Hself.
    destruct (firsts_covers (fun o => read o prop) [] array x
                Hsym Htrans Hx Hself)
      as [(k & Hk & _)|Hy]; [by apply elem_of_nil in Hk|done].
  - intros x Hself Hx.
    apply (firsts_fresh (fun o => read o prop)) in Hx as (_ & Hx & _).
    congruence.
  - intros pre x post -> Hself Hpre. apply firsts_first; [done| |done].
    intros k Hk. by apply elem_of_nil in Hk.
Qed.

End UniqueFacts.

(** Strict equality on [any] is symmetric and transitive. *)
Lemma any_same_sym (a b : Unique.any) : Unique.same a b = Unique.same b a.
Proof.
  destruct a as [| |v], b as [| |w]; try done.
  unfold Unique.same, Unique.any_same, Js.strict_eq.
  apply bool_decide_ext. split; congruence.
Qed.

Lemma any_same_trans (a b c : Unique.any) :
  Unique.same a b = true -> Unique.same b c = true -> Unique.same a c = true.
Proof.
  unfold Unique.same, Unique.any_same, Js.strict_eq.
  destruct a as [| |u], b as [| |v], c as [| |w]; try done;
    rewrite ?bool_decide_eq_true; congruence.
Qed.

(** ** Loading the styling configs *)

Section LoadFacts.
Import Js Bond BondPage.
Variable create : gmap string value -> obj.

(** The entity built by [create] carries the property it was given. *)
Hypothesis create_copies :
  forall u, get (create {[ "pokemonUuid" := u ]}) "pokemonUuid" = u.

Lemma has_config_spec (p : obj) (bndConfigs : list obj) :
  forallb (fun b => strict_ne (get b "pokemonUuid") (get p "uuid"))
          bndConfigs = false <->
  get p "uuid" ∈ (fun b => get b "pokemonUuid") <$> bndConfigs.
Proof.
  induction bndConfigs as [|b l IH]; simpl.
  - split; [done|]. intros Hin. by apply elem_of_nil in Hin.
  - rewrite andb_false_iff, IH, elem_of_cons.
    unfold strict_ne, strict_eq. rewrite negb_false_iff, bool_decide_eq_true.
    split; intros [?|?]; auto.
Qed.

Lemma tempConfigs_uuids (pkmList bndConfigs : list obj) :
  (fun c => get c "pokemonUuid") <$> tempConfigs create pkmList bndConfigs =
    (fun p => get p "uuid") <$>
      List.filter
        (fun p =>
           forallb (fun b => strict_ne (get b "pokemonUuid") (get p "uuid"))
                   bndConfigs)
        pkmList.
Proof.
  unfold tempConfigs. rewrite <- list_fmap_compose.
  apply list_fmap_ext. intros i p _. simpl. apply create_copies.
Qed.

Lemma loaded_covers (pkmList bndConfigs : list obj) (p : obj) :
  p ∈ pkmList ->
  exists c, c ∈ loadedConfigs create pkmList bndConfigs /\
            get c "pokemonUuid" = get p "uuid".
Proof.
  intros Hp. unfold loadedConfigs.
  destruct (forallb (fun b => strict_ne (get b "pokemonUuid")
                                (get p "uuid")) bndConfigs) eqn:Hhas.
  - exists (create {[ "pokemonUuid" := get p "uuid" ]}).
    split; [|apply create_copies].
    apply elem_of_app. right. unfold tempConfigs.
    apply list_elem_of_fmap. exists p. split; [done|].
    apply list_elem_of_In, filter_In. split; [|done].
    by apply list_elem_of_In.
  - apply has_config_spec in Hhas.
    apply list_elem_of_fmap in Hhas as (c & Hc & Hin).
    exists c. split; [|done]. apply elem_of_app. by left.
Qed.

Lemma temp_is_new (pkmList bndConfigs : list obj) (c : obj) :
  c ∈ tempConfigs create pkmList bndConfigs ->
  get c "pokemonUuid" ∉ (fun b => get b "pokemonUuid") <$> bndConfigs.
Proof.
  intros Hc Hin. unfold tempConfigs in Hc.
  apply list_elem_of_fmap in Hc as (p & -> & Hp).
  apply list_elem_of_In, filter_In in Hp as [_ Hp].
  rewrite create_copies in Hin. apply has_config_spec in Hin. congruence.
Qed.

Lemma filter_none {X : Type} (keep : X -> bool) (l : list X) :
  (forall x, x ∈ l -> keep x = false) -> List.filter keep l = [].
Proof.
  induction l as [|x l IH]; intros Hl; [done|]. simpl.
  rewrite (Hl x) by apply list_elem_of_here. apply IH.
  intros y Hy. apply Hl. by apply list_elem_of_further.
Qed.

(** X6.  After loading, every pokemon of the list has a styling config:
    the stored configs come first, as they were, and each pokemon left
    without one gets a new config carrying its uuid. *)
Theorem loadedConfigs_cover_every_pokemon (pkmList bndConfigs : list obj) :
  (forall p, p ∈ pkmList ->
     exists c, c ∈ loadedConfigs create pkmList bndConfigs /\
               get c "pokemonUuid" = get p "uuid") /\
  take (length bndConfigs) (loadedConfigs create pkmList bndConfigs) =
    bndConfigs /\
  (forall c, c ∈ tempConfigs create pkmList bndConfigs ->
     get c "pokemonUuid" ∉ (fun b => get b "pokemonUuid") <$> bndConfigs).
Proof.
  split; [|split].
  - apply loaded_covers.
  - unfold loadedConfigs. by rewrite take_app_length.
  - apply temp_is_new.
Qed.

(** X7.  Loading is stable: with the loaded configs taken as the stored
    ones, no further config is created. *)
Theorem loadedConfigs_stable (pkmList bndConfigs : list obj) :
  tempConfigs create pkmList (loadedConfigs create pkmList bndConfigs) = [] /\
  loadedConfigs create pkmList (loadedConfigs create pkmList bndConfigs) =
    loadedConfigs create pkmList bndConfigs.
Proof.
  assert (Hnone : tempConfigs create pkmList
                    (loadedConfigs create pkmList bndConfigs) = []).
  { unfold tempConfigs at 1.
    rewrite filter_none; [done|].
    intros p Hp. apply has_config_spec.
    destruct (loaded_covers pkmList bndConfigs p Hp) as (c & Hc & Hu).
    apply list_elem_of_fmap. by exists c. }
  split; [done|]. unfold loadedConfigs at 1. by rewrite Hnone, app_nil_r.
Qed.

Lemma NoDup_filter_fmap {X Y : Type} (f : X -> Y) (keep : X -> bool)
    (l : list X) :
  NoDup (f <$> l) -> NoDup (f <$> List.filter keep l).
Proof.
  induction l as [|x l IH]; [done|]. rewrite fmap_cons. intros Hnd.
  apply NoDup_cons in Hnd as [Hx Hnd]. simpl.
  destruct (keep x); [|by apply IH].
  rewrite fmap_cons. apply NoDup_cons_2; [|by apply IH].
  intros Hin. apply Hx. apply list_elem_of_fmap in Hin as (y & Hy & Hin).
  apply list_elem_of_In, filter_In in Hin as [Hin _].
  apply list_elem_of_fmap. exists y. split; [done|]. by apply list_elem_of_In.
Qed.

(** X8.  If no two pokemon share a uuid and no two stored configs share a
    pokemon, then no two loaded configs share a pokemon. *)
Theorem loadedConfigs_one_per_pokemon (pkmList bndConfigs : list obj) :
  NoDup ((fun p => get p "uuid") <$> pkmList) ->
  NoDup ((fun b => get b "pokemonUuid") <$> bndConfigs) ->
  NoDup ((fun c => get c "pokemonUuid") <$>
           loadedConfigs create pkmList bndConfigs).
Proof.
  intros Hp Hb. unfold loadedConfigs. rewrite fmap_app.
  apply NoDup_app. split; [done|]. split.
  - intros u Hu Hin. apply list_elem_of_fmap in Hin as (c & -> & Hc).
    by apply (temp_is_new pkmList bndConfigs c).
  - rewrite tempConfigs_uuids. by apply NoDup_filter_fmap.
Qed.

End LoadFacts.

(** ** More on the table editors *)

Section EditorMore.
Import Js Saver Bond BondPage.
Context {E : Type}.
Variable remove_fails : obj -> option E.
Variable W : Z.
Variable merge : patch_of -> patch_of -> patch_of.
Variable identity : obj -> value.

Local Open Scope Z_scope.


Lemma apply_updates_snoc (us : list update) (u : update)
    (current : list obj) (fresh : nat) :
  apply_updates (us ++ [u]) current fresh =
    match apply_updates us current fresh with
    | Some (current', fresh') => apply_update u current' fresh'
    | None => None
    end.
Proof.
  revert current fresh. induction us as [|u' us IH]; intros current fresh.
  - cbn [app apply_updates].
    by destruct (apply_update u current fresh) as [[l n]|].
  - cbn [app apply_updates].
    destruct (apply_update u' current fresh) as [[l n]|]; [apply IH|done].
Qed.

(** The render that follows one more update shows what that update makes
    of the list the render would have shown without it. *)
Lemma render_snoc (u : update) (ed ed' shown : editor E) :
  render ed = Some shown ->
  items ed' = items ed -> queued ed' = queued ed ++ [u] ->
  nextRef ed' = nextRef ed ->
  render ed' =
    match apply_update u (items shown) (nextRef shown) with
    | Some (current, fresh) =>
        Some (Editor current [] fresh (saver ed') (deleted ed'))
    | None => None
    end.
Proof.
  unfold render. intros Hshown Hitems Hqueued Hnext.
  rewrite Hitems, Hqueued, Hnext, apply_updates_snoc.
  destruct (apply_updates (queued ed) (items ed) (nextRef ed)) as [[l n]|];
    [|done].
  injection Hshown as <-. done.
Qed.

(** The render that follows [remove]. *)
Lemma render_remove (log : obj) (ed shown : editor E) :
  render ed = Some shown ->
  render (snd (remove remove_fails log ed)) =
    Some (Editor
            (List.filter (fun l => strict_ne (get l "id") (get log "id"))
                         (items shown))
            [] (nextRef shown) (saver ed)
            (deleted ed ++ [(clock (saver ed), log)])).
Proof.
  intros Hshown.
  destruct (remove_parts remove_fails log ed)
    as (_ & Hitems & Hqueued & Hnext & Hdel & Hsaver).
  rewrite (render_snoc _ ed _ shown Hshown Hitems Hqueued Hnext).
  cbn [apply_update]. by rewrite Hdel, Hsaver.
Qed.

(** A page just rendered is what its next render shows. *)
Lemma render_idle (ed : editor E) :
  queued ed = [] -> render ed = Some ed.
Proof. intros Hq. unfold render. rewrite Hq. by destruct ed; simplify_eq/=. Qed.

(** The render that follows [edit] of a row the page shows. *)
Lemma render_edit_found (log : obj) (prop : string) (v : value)
    (ed : editor E) (i : nat) (o : obj) :
  queued ed = [] -> indexOf (items ed) log = Z.of_nat i ->
  items ed !! i = Some o ->
  render (snd (edit W merge identity log prop v ed)) =
    Some (Editor
            (<[i := Obj (nextRef ed) (<[prop := v]> (fields o))]> (items ed))
            [] (S (nextRef ed))
            (saver (snd (edit W merge identity log prop v ed)))
            (deleted ed)).
Proof.
  intros Hq Hi Ho.
  destruct (edit_parts W merge identity log prop v ed)
    as (_ & Hitems & Hqueued & Hnext & Hdel & _).
  rewrite Hq in Hqueued. cbn [app] in Hqueued.
  rewrite (render_one _ _ Hqueued), Hitems, Hnext, Hi, Hdel.
  by rewrite (apply_setItemProp_found i o prop v _ _ Ho).
Qed.

(** X9.  [edit] of a row the page shows touches that row and that field
    only: at the next render the list has the length it had, every other
    row is the same object, the copy that replaces the row differs from it
    in [prop] alone, and nothing is handed to the repository for
    deletion. *)
Theorem edit_touches_one_field
    (log : obj) (prop : string) (v : value) (ed : editor E) :
  queued ed = [] ->
  0 <= indexOf (items ed) log ->
  let i := Z.to_nat (indexOf (items ed) log) in
  exists ed',
    render (snd (edit W merge identity log prop v ed)) = Some ed' /\
    length (items ed') = length (items ed) /\
    (forall j, j <> i -> items ed' !! j = items ed !! j) /\
    (exists o o',
        items ed !! i = Some o /\ items ed' !! i = Some o' /\
        forall q, q <> prop -> get o' q = get o q) /\
    deleted ed' = deleted ed.
Proof.
  intros Hq Hi i.
  destruct (indexOf_found _ _ Hi) as (o & Ho & Href). fold i in Ho.
  eexists. split.
  { apply (render_edit_found log prop v ed i o); [done|lia|done]. }
  cbn [items deleted].
  split; [apply length_insert|]. split; [|split; [|done]].
  - intros j Hj. by apply list_lookup_insert_ne.
  - exists o. eexists. split; [done|]. split.
    + apply list_lookup_insert_eq. by apply lookup_lt_Some in Ho.
    + intros q Hq'. unfold get. simpl. by rewrite lookup_insert_ne.
Qed.

Lemma NoDup_insert_fresh {X : Type} (l : list X) (i : nat) (x : X) :
  NoDup l -> x ∉ l -> NoDup (<[i := x]> l).
Proof.
  revert i. induction l as [|y l IH]; intros i Hnd Hx; [done|].
  apply NoDup_cons in Hnd as [Hy Hnd].
  apply not_elem_of_cons in Hx as [Hxy Hx].
  destruct i as [|i]; simpl.
  - by apply NoDup_cons_2.
  - apply NoDup_cons_2; [|by apply IH].
    intros Hin. apply list_elem_of_lookup in Hin as (j & Hj).
    destruct (decide (j = i)) as [->|Hne].
    + destruct (decide (i < length l)%nat) as [Hlt|Hge].
      * rewrite list_lookup_insert_eq in Hj by done. congruence.
      * rewrite list_insert_ge in Hj by lia.
        apply Hy, list_elem_of_lookup. by exists i.
    + rewrite list_lookup_insert_ne in Hj by done.
      apply Hy, list_elem_of_lookup. by exists j.
Qed.

(** X10.  Rows that are distinct objects allocated before [nextRef] are
    so again at the render that follows [edit] and at the one that follows
    [remove]. *)
Theorem editors_keep_rows_distinct
    (log : obj) (prop : string) (v : value) (ed : editor E) :
  distinct_rows ed -> queued ed = [] ->
  (exists ed1,
      render (snd (edit W merge identity log prop v ed)) = Some ed1 /\
      distinct_rows ed1) /\
  (exists ed2,
      render (snd (remove remove_fails log ed)) = Some ed2 /\
      distinct_rows ed2).
Proof.
  intros [Hnd Hlt] Hq. split.
  - destruct (Z_lt_le_dec (indexOf (items ed) log) 0) as [Hneg|Hi].
    + destruct (edit_parts W merge identity log prop v ed)
        as (_ & Hitems & Hqueued & Hnext & _).
      rewrite Hq in Hqueued. cbn [app] in Hqueued.
      eexists. split.
      * rewrite (render_one _ _ Hqueued). cbn [apply_update].
        by rewrite (proj2 (Z.ltb_lt _ 0) Hneg).
      * unfold distinct_rows. cbn [items nextRef]. by rewrite Hitems, Hnext.
    + destruct (indexOf_found _ _ Hi) as (o & Ho & _).
      eexists. split.
      * apply (render_edit_found log prop v ed
                 (Z.to_nat (indexOf (items ed) log)) o); [done|lia|done].
      * unfold distinct_rows. cbn [items nextRef]. split.
        -- rewrite list_fmap_insert. simpl. apply NoDup_insert_fresh; [done|].
           intros Hin. apply list_elem_of_fmap in Hin as (y & Hy & Hin).
           rewrite Forall_forall in Hlt. specialize (Hlt y Hin). lia.
        -- apply Forall_insert.
           ++ eapply Forall_impl; [exact Hlt|]. intros y Hy. simpl in Hy. lia.
           ++ simpl. lia.
  - eexists. split; [apply render_remove, render_idle, Hq|].
    unfold distinct_rows. cbn [items nextRef]. split.
    + by apply NoDup_filter_fmap.
    + rewrite Forall_forall in *. intros y Hy. apply Hlt.
      apply list_elem_of_In, filter_In in Hy as [Hy _].
      by apply list_elem_of_In.
Qed.


(** X13.  Whatever updates are waiting, the render that follows [remove]
    shows the list it would have shown, without the rows that carry the id
    of the row given and with the others in their order; removing again
    changes nothing more. *)
Theorem remove_drops_rows_with_that_id (log : obj) (ed shown : editor E) :
  render ed = Some shown ->
  exists ed',
    render (snd (remove remove_fails log ed)) = Some ed' /\
    (forall l, l ∈ items ed' <->
               l ∈ items shown /\ get l "id" <> get log "id") /\
    items ed' `sublist_of` items shown /\
    (exists ed'',
        render (snd (remove remove_fails log ed')) = Some ed'' /\
        items ed'' = items ed') /\
    nextRef ed' = nextRef shown.
Proof.
  intros Hshown. eexists. split; [by apply render_remove|].
  cbn [items nextRef].
  assert (Hkeep : forall l (rows : list obj),
            l ∈ List.filter
                  (fun l => strict_ne (get l "id") (get log "id")) rows <->
            l ∈ rows /\ get l "id" <> get log "id").
  { intros l rows. rewrite list_elem_of_In, filter_In, <- list_elem_of_In.
    unfold strict_ne, strict_eq.
    by rewrite negb_true_iff, bool_decide_eq_false. }
  split; [intros l; apply Hkeep|]. split; [|split; [|done]].
  - clear. induction (items shown) as [|y l IH]; [done|].
    simpl. destruct (strict_ne (get y "id") (get log "id")).
    + by apply sublist_skip.
    + by apply sublist_cons.
  - eexists. split; [by apply render_remove, render_idle|].
    cbn [items]. apply filter_all_kept. intros x Hx.
    apply Hkeep in Hx as [_ Hx]. unfold strict_ne, strict_eq.
    by rewrite negb_true_iff, bool_decide_eq_false.
Qed.

End EditorMore.

(** ** Adding a row *)

Section AddFacts.
Import Js Saver Bond BondPage.
Context {E : Type}.
Variable create : gmap string value -> obj.
Variable save : obj -> obj + E.
Variable type_error : E.
Variable today : value.
Variable remove_fails : obj -> option E.

(** The render that follows [append]. *)
Lemma render_append (rows : list obj) (ed shown : editor E) :
  render ed = Some shown ->
  render (Bond.append rows ed) =
    Some (Editor (items shown ++ rows) [] (nextRef shown) (saver ed)
                 (deleted ed)).
Proof.
  intros Hshown.
  by rewrite (render_snoc (AppendRows rows) ed _ shown Hshown).
Qed.

(** X14.  [add] changes what the page shows only when the repository has
    stored the new row: the row is then handed to [append], and the next
    render shows the list it would have shown with that row at the end.
    With no pokemon in the list [add] fails with the [TypeError] before
    anything is handed to the repository; when the save fails it fails
    likewise and nothing is handed to React.  The debounced saver is never
    involved. *)
Theorem add_appends_the_saved_row (pokemonList : list obj) (ed : editor E) :
  let r := fst (fst (add create save type_error today pokemonList ed)) in
  let ed' := snd (fst (add create save type_error today pokemonList ed)) in
  let handed := snd (add create save type_error today pokemonList ed) in
  saver ed' = saver ed /\
  deleted ed' = deleted ed /\
  items ed' = items ed /\
  (pokemonList = [] -> r = Throw type_error /\ ed' = ed /\ handed = []) /\
  (forall e, r = Throw e -> ed' = ed) /\
  (r = Normal VUndefined ->
   exists entity row,
     handed = [entity] /\ save entity = inl row /\
     forall shown, render ed = Some shown ->
       exists shown',
         render ed' = Some shown' /\
         items shown' = items shown ++ [row] /\
         forall j o, items shown !! j = Some o -> items shown' !! j = Some o).
Proof.
  cbn zeta. unfold add. destruct pokemonList as [|p pl].
  - cbn. repeat split; try done.
  - destruct (save _) as [row|e] eqn:Hsave; cbn [fst snd].
    + repeat split; try done.
      intros _. eexists. exists row. repeat split; [exact Hsave|].
      intros shown Hshown. eexists.
      split; [by apply render_append|]. cbn [items]. split; [done|].
      intros j o Ho. by apply lookup_app_l_Some.
    + repeat split; try done.
Qed.

(** X15.  Adding a row and removing it again gives back the list the page
    would have shown, with or without a render between the two, provided
    no row of that list has the id the new row was stored under. *)
Theorem add_then_remove_restores_list
    (p : obj) (pokemonList : list obj) (ed shown : editor E) (row : obj) :
  save (newLog create today p) = inl row ->
  render ed = Some shown ->
  (forall l, l ∈ items shown -> get l "id" <> get row "id") ->
  let ed1 := snd (fst (add create save type_error today
                           (p :: pokemonList) ed)) in
  (exists shown1 shown2,
      render ed1 = Some shown1 /\
      items shown1 = items shown ++ [row] /\
      render (snd (remove remove_fails row shown1)) = Some shown2 /\
      items shown2 = items shown) /\
  (exists shown2,
      render (snd (remove remove_fails row ed1)) = Some shown2 /\
      items shown2 = items shown).
Proof.
  intros Hsave Hshown Hids. cbn zeta. unfold add. rewrite Hsave.
  cbn [fst snd].
  pose proof (render_append [row] ed shown Hshown) as Hr1.
  assert (Hback :
            List.filter (fun l => strict_ne (get l "id") (get row "id"))
                        (items shown ++ [row]) = items shown).
  { rewrite List.filter_app. simpl.
    unfold strict_ne at 2, strict_eq. rewrite bool_decide_eq_true_2 by done.
    simpl. rewrite app_nil_r. apply filter_all_kept. intros l Hl.
    unfold strict_ne, strict_eq.
    rewrite negb_true_iff, bool_decide_eq_false. by apply Hids. }
  split.
  - eexists. eexists. split; [exact Hr1|]. split; [done|]. split.
    + by apply render_remove, render_idle.
    + cbn [items]. exact Hback.
  - eexists. split; [apply render_remove; exact Hr1|].
    cbn [items]. exact Hback.
Qed.

End AddFacts.

(** ** The word counter: typing *)

Section TypingFacts.
Import Js Debounce WordCounter.
Context {E : Type}.
Variable save_fails : text -> option E.
Variable call_first : nat -> Z -> bool.

Local Open Scope Z_scope.

(** X16.  Keystrokes that follow each other within 250ms: as long as the
    last one is less than 250ms old the page shows what it showed before
    the burst; from then on it shows the text of the last keystroke, saved
    once if the repository is set and not at all if it is not. *)
Theorem typing_burst_shows_last_text
    (repo : bool) (p0 : page) (t0 : Z) (x0 : text)
    (more : list (Z * text)) (T : Z) :
  0 <= t0 ->
  gaps (fun g => 0 <= g < window) (t0 :: more.*1) ->
  let final := List.last more (t0, x0) in
  let w := elapse save_fails T
             (run save_fails window call_first ((t0, x0) :: more) init) in
  (T < fst final + window -> page_after repo p0 w = p0) /\
  (fst final + window <= T ->
   page_after repo p0 w =
     Page (Some (snd final))
          (if repo then saved p0 ++ [("word counter", snd final)]
           else saved p0)).
Proof.
  intros Ht0 Hg final w.
  assert (Harm : armed window (fst final) (snd final) []
                   (run save_fails window call_first more
                      (call_at save_fails window call_first t0 x0 init))).
  { apply run_burst; [|done].
    apply (call_at_armed save_fails window call_first t0 x0 init);
      [done|simpl; lia|].
    intros tm Hq. discriminate Hq. }
  change (run save_fails window call_first ((t0, x0) :: more) init)
    with (run save_fails window call_first more
            (call_at save_fails window call_first t0 x0 init))
    in w.
  split; intros HT; unfold page_after; subst w.
  - by rewrite (armed_early save_fails window _ T _ _ _ Harm).
  - destruct (armed_flush save_fails window _ T _ _ _ Harm) as [-> _];
      [done|].
    cbn. unfold onTextChange_fn. by destruct repo.
Qed.

End TypingFacts.

(** ** The word counter: counting *)

Section CountFacts.
Import WordCounter.

Lemma pieces_space (piece : text) (c : N) (s : text) :
  is_space c = true ->
  pieces piece (c :: s) =
    ((if (length piece =? 0)%nat then 0 else 1) + pieces [] s)%nat.
Proof.
  intros Hc. unfold pieces. cbn [split_from]. rewrite Hc. cbn [List.filter].
  by destruct (length piece =? 0)%nat.
Qed.

Lemma pieces_letter (piece : text) (c : N) (s : text) :
  is_space c = false -> pieces piece (c :: s) = pieces (piece ++ [c]) s.
Proof. intros Hc. unfold pieces. cbn [split_from]. by rewrite Hc. Qed.

Lemma pieces_nonempty (piece piece' : text) (s : text) :
  piece <> [] -> piece' <> [] -> pieces piece s = pieces piece' s.
Proof.
  revert piece piece'. induction s as [|c s IH]; intros piece piece' Hp Hp'.
  - unfold pieces. destruct piece, piece'; done.
  - destruct (is_space c) eqn:Hc.
    + rewrite !pieces_space by done. by destruct piece, piece'.
    + rewrite !pieces_letter by done. apply IH; by destruct piece, piece'.
Qed.






End CountFacts.

(** ** The word counter: dropping quotes *)

Section StripFacts.
Import WordCounter.

Local Open Scope N_scope.

Lemma open_tag_codes : open_tag = [91; 113; 117; 111; 116; 101].
Proof. reflexivity. Qed.

Lemma close_tag_codes : close_tag = [91; 47; 113; 117; 111; 116; 101; 93].
Proof. reflexivity. Qed.

Lemma canon_eqb (c k : N) :
  (canon c =? k) = true <->
  (97 <= c <= 122 /\ c = k + 32) \/ (~ 97 <= c <= 122 /\ c = k).
Proof.
  unfold canon. rewrite N.eqb_eq.
  destruct ((97 <=? c) && (c <=? 122)) eqn:Hr.
  - apply andb_true_iff in Hr as [H1 H2]. apply N.leb_le in H1, H2. lia.
  - apply andb_false_iff in Hr as [Hr|Hr]; apply N.leb_gt in Hr; lia.
Qed.

Lemma canon_open (c : N) : (canon c =? canon 91) = true <-> c = 91.
Proof. change (canon 91) with 91. rewrite canon_eqb. lia. Qed.

Lemma literal_needs_open (pat : text) (c : N) (s : text) :
  c <> 91 -> literal (91 :: pat) (c :: s) = None.
Proof.
  intros Hc. cbn [literal].
  destruct (canon c =? canon 91) eqn:Heq; [|done].
  by apply canon_open in Heq.
Qed.

Lemma literal_app (pat a b : text) :
  literal pat a = Some [] -> literal pat (a ++ b) = Some b.
Proof.
  revert a. induction pat as [|p pat IH]; intros a; cbn [literal].
  - by intros [= ->].
  - destruct a as [|c a]; [done|]. rewrite <- app_comm_cons.
    destruct (canon c =? canon p); [apply IH | done].
Qed.

Lemma literal_length (pat a : text) :
  literal pat a = Some [] -> length a = length pat.
Proof.
  revert a. induction pat as [|p pat IH]; intros a; cbn [literal].
  - by intros [= ->].
  - destruct a as [|c a]; [done|].
    destruct (canon c =? canon p); [|done].
    intros Ha. simpl. f_equal. by apply IH.
Qed.

(** A closing tag begins with the only [[] it holds. *)
Lemma closing_shape (closing : text) :
  literal close_tag closing = Some [] ->
  exists rest, closing = 91 :: rest /\ Forall (fun c => c <> 91) rest.
Proof.
  rewrite close_tag_codes. intros Hc.
  repeat (destruct closing as [|? closing]; cbn [literal] in Hc;
          [discriminate Hc|];
          match type of Hc with
          | (if (canon ?c =? canon ?k) then _ else _) = _ =>
              destruct (canon c =? canon k) eqn:?Hk; [|discriminate Hc]
          end).
  injection Hc as ->.
  repeat match goal with
         | H : (canon _ =? canon ?k) = true |- _ =>
             let k' := eval vm_compute in (canon k) in
             change (canon k) with k' in H; apply canon_eqb in H
         end.
  eexists. split; [f_equal; lia|].
  repeat (apply Forall_cons; split; [lia|]). constructor.
Qed.

Lemma opening_shape (opening : text) :
  literal open_tag opening = Some [] ->
  exists rest, opening = 91 :: rest /\ length rest = 5%nat.
Proof.
  intros Ho. pose proof (literal_length _ _ Ho) as Hlen.
  rewrite open_tag_codes in Ho. destruct opening as [|c opening]; [done|].
  cbn [literal] in Ho.
  destruct (canon c =? canon 91) eqn:Hc; [|done].
  apply canon_open in Hc as ->. exists opening. split; [done|].
  simpl in Hlen. lia.
Qed.

Lemma body_close_none (s : text) :
  Forall (fun c => c <> 91) s -> body_close s = None.
Proof.
  induction 1 as [|c s Hc Hs IH]; [done|].
  cbn [body_close]. rewrite IH, close_tag_codes.
  by rewrite literal_needs_open.
Qed.

Lemma body_close_last (m closing post : text) :
  literal close_tag closing = Some [] ->
  Forall (fun c => c <> 91) post ->
  body_close (m ++ closing ++ post) =
    Some (length m + length close_tag)%nat.
Proof.
  intros Hc Hpost. induction m as [|x m IH].
  - destruct (closing_shape _ Hc) as (rest & -> & Hrest).
    cbn [app body_close length Nat.add].
    rewrite body_close_none by (apply Forall_app; by split).
    change (91 :: rest ++ post) with ((91 :: rest) ++ post).
    by rewrite (literal_app _ _ post Hc).
  - cbn [app body_close]. by rewrite IH.
Qed.

Lemma attr_rest_none (s : text) :
  Forall (fun c => c <> 91) s -> attr_rest s = None.
Proof.
  induction 1 as [|c s Hc Hs IH]; [done|].
  cbn [attr_rest]. rewrite IH. unfold bracket_body_close.
  rewrite body_close_none by done.
  by destruct (is_space c), (c =? bracket).
Qed.

(** Whatever way the attribute is read, the match ends behind the last
    closing tag. *)
Lemma attr_rest_end (y closing post : text) (n : nat) :
  literal close_tag closing = Some [] ->
  Forall (fun c => c <> 91) post ->
  attr_rest (y ++ closing ++ post) = Some n ->
  n = (length y + length close_tag)%nat.
Proof.
  intros Hc Hpost. revert n. induction y as [|c y IH]; intros n.
  - destruct (closing_shape _ Hc) as (rest & -> & Hrest).
    cbn [app attr_rest]. change (is_space 91) with false. cbv iota.
    rewrite attr_rest_none by (apply Forall_app; by split).
    unfold bracket_body_close. by change (91 =? bracket) with false.
  - cbn [app attr_rest]. unfold bracket_body_close.
    rewrite (body_close_last y closing post Hc Hpost).
    destruct (is_space c).
    + destruct (c =? bracket); [|done]. intros [= <-]. simpl. lia.
    + destruct (attr_rest (y ++ closing ++ post)) as [n'|] eqn:Hy.
      * intros [= <-]. rewrite (IH n' eq_refl). simpl. lia.
      * destruct (c =? bracket); [|done]. intros [= <-]. simpl. lia.
Qed.

Lemma attr_rest_found (attr mid closing post : text) :
  Forall (fun c => is_space c = false) attr ->
  literal close_tag closing = Some [] ->
  Forall (fun c => c <> 91) post ->
  attr_rest (attr ++ bracket :: mid ++ closing ++ post) =
    Some (length attr + S (length mid + length close_tag))%nat.
Proof.
  intros Hattr Hc Hpost. induction Hattr as [|c attr Hsp Hattr IH].
  - cbn [app attr_rest length Nat.add].
    change (is_space bracket) with false. cbv iota.
    destruct (attr_rest (mid ++ closing ++ post)) as [n|] eqn:Hn.
    + by rewrite (attr_rest_end mid closing post n Hc Hpost Hn).
    + unfold bracket_body_close. change (bracket =? bracket) with true.
      cbv iota. by rewrite (body_close_last mid closing post Hc Hpost).
  - cbn [app attr_rest]. rewrite Hsp, IH. done.
Qed.

Lemma match_here_found (opening attr mid closing post : text) :
  literal open_tag opening = Some [] ->
  attr <> [] -> Forall (fun c => is_space c = false) attr ->
  literal close_tag closing = Some [] ->
  Forall (fun c => c <> 91) post ->
  match_here (opening ++ attr ++ bracket :: mid ++ closing ++ post) =
    Some (length (opening ++ attr ++ bracket :: mid ++ closing)).
Proof.
  intros Ho Hne Hattr Hc Hpost. unfold match_here.
  rewrite (literal_app _ _ _ Ho).
  destruct Hattr as [|c attr Hsp Hattr]; [done|].
  cbn [app]. rewrite Hsp.
  rewrite (attr_rest_found attr mid closing post Hattr Hc Hpost).
  cbn [fmap option_fmap option_map]. f_equal.
  pose proof (literal_length _ _ Hc) as Hlc.
  pose proof (literal_length _ _ Ho) as Hlo.
  repeat (rewrite ?length_app; cbn [length]). lia.
Qed.

Lemma match_here_needs_open (c : N) (s : text) :
  c <> 91 -> match_here (c :: s) = None.
Proof.
  intros Hc. unfold match_here. rewrite open_tag_codes.
  by rewrite literal_needs_open.
Qed.

Lemma strip_no_open (s : text) :
  Forall (fun c => c <> 91) s -> strip_from 0 s = s.
Proof.
  induction 1 as [|c s Hc Hs IH]; [done|].
  cbn [strip_from]. rewrite match_here_needs_open by done. by rewrite IH.
Qed.

Lemma strip_skip (m r : text) :
  strip_from (length m) (m ++ r) = strip_from 0 r.
Proof. induction m as [|c m IH]; [done|]. simpl. apply IH. Qed.

Lemma strip_app_no_open (a b : text) :
  Forall (fun c => c <> 91) a -> strip_from 0 (a ++ b) = a ++ strip_from 0 b.
Proof.
  induction 1 as [|c a Hc Ha IH]; [done|].
  cbn [app strip_from]. rewrite match_here_needs_open by done. by rewrite IH.
Qed.

(** X19.  Where a quote with an attribute opens and a closing tag follows,
    everything from the first opening tag to the last closing tag is
    dropped, the text between two quotes included; the tags are matched in
    any letter case. *)
Theorem stripQuotes_drops_first_open_to_last_close
    (pre opening attr mid closing post : text) :
  Forall (fun c => c <> 91) pre ->
  literal open_tag opening = Some [] ->
  attr <> [] -> Forall (fun c => is_space c = false) attr ->
  literal close_tag closing = Some [] ->
  Forall (fun c => c <> 91) post ->
  stripQuotes (pre ++ opening ++ attr ++ bracket :: mid ++ closing ++ post)
    = pre ++ post /\
  labelCount
    (Some (pre ++ opening ++ attr ++ bracket :: mid ++ closing ++ post))
    = countWords (pre ++ post).
Proof.
  intros Hpre Ho Hne Hattr Hc Hpost.
  cut (stripQuotes
         (pre ++ opening ++ attr ++ bracket :: mid ++ closing ++ post)
       = pre ++ post).
  { intros Heq. split; [done|]. unfold labelCount. by rewrite Heq. }
  unfold stripQuotes.
  rewrite strip_app_no_open by done. f_equal.
  pose proof (match_here_found opening attr mid closing post
                Ho Hne Hattr Hc Hpost) as Hm.
  destruct (opening_shape _ Ho) as (rest & -> & _).
  cbn [app] in *. cbn [strip_from]. rewrite Hm. cbn [length].
  replace (rest ++ attr ++ bracket :: mid ++ closing ++ post)
    with ((rest ++ attr ++ bracket :: mid ++ closing) ++ post)
    by (by rewrite <- !app_assoc, <- !app_comm_cons, <- !app_assoc).
  rewrite strip_skip. by apply strip_no_open.
Qed.

Lemma literal_drop (pat s r : text) :
  literal pat s = Some r -> r = drop (length pat) s.
Proof.
  revert s. induction pat as [|p pat IH]; intros s; cbn [literal].
  - by intros [= ->].
  - destruct s as [|c s]; [done|].
    destruct (canon c =? canon p); [apply IH | done].
Qed.

Lemma body_close_no_tag (s : text) :
  (forall i, literal close_tag (drop i s) = None) -> body_close s = None.
Proof.
  induction s as [|c s IH]; intros Hs; [done|].
  cbn [body_close]. rewrite IH by (intros i; apply (Hs (S i))).
  pose proof (Hs 0%nat) as H0. cbn [drop] in H0. by rewrite H0.
Qed.

Lemma attr_rest_no_tag (s : text) :
  (forall i, literal close_tag (drop i s) = None) -> attr_rest s = None.
Proof.
  induction s as [|c s IH]; intros Hs; [done|].
  cbn [attr_rest]. rewrite IH by (intros i; apply (Hs (S i))).
  unfold bracket_body_close.
  rewrite body_close_no_tag by (intros i; apply (Hs (S i))).
  by destruct (is_space c), (c =? bracket).
Qed.

Lemma match_here_no_tag (s : text) :
  (forall i, literal close_tag (drop i s) = None) -> match_here s = None.
Proof.
  intros Hs. unfold match_here.
  destruct (literal open_tag s) as [[|c s']|] eqn:Ho; [done| |done].
  apply literal_drop in Ho.
  rewrite attr_rest_no_tag; [by destruct (is_space c)|].
  intros i. specialize (Hs (length open_tag + S i)%nat).
  by rewrite <- drop_drop, <- Ho in Hs.
Qed.

(** X20.  A text in which no closing tag occurs is left as it is, opening
    tags or not. *)
Theorem stripQuotes_needs_a_closing_tag (s : text) :
  (forall i, literal close_tag (drop i s) = None) ->
  stripQuotes s = s /\ labelCount (Some s) = countWords s.
Proof.
  intros Hs.
  cut (stripQuotes s = s).
  { intros Heq. split; [done|]. unfold labelCount. by rewrite Heq. }
  unfold stripQuotes. induction s as [|c s IH]; [done|].
  cbn [strip_from]. rewrite match_here_no_tag by done.
  by rewrite IH by (intros i; apply (Hs (S i))).
Qed.

Lemma attr_rest_no_bracket (y z : text) :
  Forall (fun c => c <> bracket) y -> attr_rest z = None ->
  attr_rest (y ++ z) = None.
Proof.
  intros Hy Hz. induction Hy as [|c y Hc Hy IH]; [done|].
  cbn [app attr_rest]. rewrite IH. unfold bracket_body_close.
  apply N.eqb_neq in Hc. rewrite Hc. by destruct (is_space c).
Qed.

(** X21.  A quote whose opening tag has no attribute, [[quote]], is not
    dropped: the pattern wants at least one code unit between [[quote]
    and []]. *)
Theorem stripQuotes_keeps_quote_without_attribute (pre body post : text) :
  Forall (fun c => c <> 91) pre ->
  Forall (fun c => c <> 91 /\ c <> bracket) body ->
  Forall (fun c => c <> 91 /\ c <> bracket) post ->
  stripQuotes (pre ++ codes "[quote]" ++ body ++ close_tag ++ post) =
    pre ++ codes "[quote]" ++ body ++ close_tag ++ post.
Proof.
  intros Hpre Hbody Hpost. unfold stripQuotes.
  assert (Hb91 : Forall (fun c => c <> 91) body)
    by (eapply Forall_impl; [exact Hbody | by intros c [? ?]]).
  assert (Hb93 : Forall (fun c => c <> bracket) body)
    by (eapply Forall_impl; [exact Hbody | by intros c [? ?]]).
  assert (Hp91 : Forall (fun c => c <> 91) post)
    by (eapply Forall_impl; [exact Hpost | by intros c [? ?]]).
  rewrite strip_app_no_open by done. f_equal.
  change (codes "[quote]") with (91 :: codes "quote]").
  rewrite close_tag_codes.
  assert (Htail : strip_from 0 ([91; 47; 113; 117; 111; 116; 101; 93] ++ post)
                  = [91; 47; 113; 117; 111; 116; 101; 93] ++ post).
  { change ([91; 47; 113; 117; 111; 116; 101; 93] ++ post)
      with (91 :: ([47; 113; 117; 111; 116; 101; 93] ++ post)).
    cbn [strip_from].
    change (match_here (91 :: [47; 113; 117; 111; 116; 101; 93] ++ post))
      with (@None nat).
    cbv iota. f_equal.
    rewrite strip_app_no_open by (repeat constructor; done).
    by rewrite strip_no_open. }
  assert (Hattr : attr_rest (body ++ [91; 47; 113; 117; 111; 116; 101; 93]
                               ++ post) = None).
  { apply attr_rest_no_bracket; [done|].
    apply (attr_rest_no_bracket [91; 47; 113; 117; 111; 116; 101]
             (93 :: post)); [repeat constructor; done|].
    cbn [attr_rest]. change (is_space 93) with false. cbv iota.
    rewrite attr_rest_none by done. unfold bracket_body_close.
    change (93 =? bracket) with true. cbv iota.
    by rewrite body_close_none. }
  assert (Hm : match_here
                 (91 :: codes "quote]" ++ body
                     ++ [91; 47; 113; 117; 111; 116; 101; 93] ++ post)
               = None).
  { unfold match_here. rewrite open_tag_codes.
    change (codes "quote]") with [113; 117; 111; 116; 101; 93].
    cbn [app literal].
    change (canon 91 =? canon 91) with true.
    change (canon 113 =? canon 113) with true.
    change (canon 117 =? canon 117) with true.
    change (canon 111 =? canon 111) with true.
    change (canon 116 =? canon 116) with true.
    change (canon 101 =? canon 101) with true. cbv iota.
    change (is_space 93) with false. cbv iota.
    cbn [app] in Hattr. by rewrite Hattr. }
  change ((91 :: codes "quote]") ++ body
            ++ [91; 47; 113; 117; 111; 116; 101; 93] ++ post)
    with (91 :: (codes "quote]" ++ body
                   ++ [91; 47; 113; 117; 111; 116; 101; 93] ++ post)).
  set (rest := codes "quote]" ++ body
                 ++ [91; 47; 113; 117; 111; 116; 101; 93] ++ post) in *.
  cbn [strip_from]. rewrite Hm. f_equal. subst rest.
  rewrite (strip_app_no_open (codes "quote]")) by (repeat constructor; done).
  f_equal. rewrite strip_app_no_open by done. f_equal. exact Htail.
Qed.

Lemma strip_from_sublist (k : nat) (s : text) :
  strip_from k s `sublist_of` s.
Proof.
  revert k. induction s as [|c s IH]; intros k; [done|].
  cbn [strip_from]. destruct k as [|k]; [|by apply sublist_cons].
  destruct (match_here (c :: s)) as [[|n]|].
  - by apply sublist_skip.
  - by apply sublist_cons.
  - by apply sublist_skip.
Qed.

(** X22.  Dropping quotes only takes code units away: what is left is the
    text with some stretches cut out, in the same order. *)
Theorem stripQuotes_only_removes (s : text) :
  stripQuotes s `sublist_of` s /\
  (length (stripQuotes s) <= length s)%nat.
Proof.
  split; [apply strip_from_sublist|].
  apply sublist_length, strip_from_sublist.
Qed.

End StripFacts.

(** ** More on the replacer *)

Section ReplacerMore.
Import Js Replacer.

Lemma replace_all_fresh (kvs : list (value * value)) (seen : gset nat)
    (r : nat) :
  VObj r ∈ replace_all kvs seen -> r ∉ seen.
Proof.
  revert seen. induction kvs as [|[k v] kvs IH]; intros seen; cbn [replace_all].
  - intros Hin. by apply elem_of_nil in Hin.
  - destruct (is_object v) eqn:Hobj.
    + apply is_object_obj in Hobj as [r' ->].
      destruct (decide (r' ∈ seen)) as [Hin'|Hnin'].
      * rewrite replacer_again by done. intros Hin.
        apply elem_of_cons in Hin as [Hin|Hin]; [done|]. by apply IH.
      * rewrite replacer_first by done. intros Hin.
        apply elem_of_cons in Hin as [[= ->]|Hin]; [done|].
        apply IH in Hin. set_solver.
    + rewrite replacer_primitive by done. intros Hin.
      apply elem_of_cons in Hin as [<-|Hin]; [done|]. by apply IH.
Qed.

Lemma replace_all_objects_NoDup (kvs : list (value * value))
    (seen : gset nat) :
  NoDup (List.filter is_object (replace_all kvs seen)).
Proof.
  revert seen. induction kvs as [|[k v] kvs IH]; intros seen; cbn [replace_all].
  - apply NoDup_nil_2.
  - destruct (is_object v) eqn:Hobj.
    + apply is_object_obj in Hobj as [r ->].
      destruct (decide (r ∈ seen)) as [Hin|Hnin].
      * rewrite replacer_again by done. simpl. apply IH.
      * rewrite replacer_first by done. simpl.
        apply NoDup_cons_2; [|apply IH].
        intros Hin. apply list_elem_of_In, filter_In in Hin as [Hin _].
        apply list_elem_of_In, replace_all_fresh in Hin. set_solver.
    + rewrite replacer_primitive by done. simpl. rewrite Hobj. apply IH.
Qed.

Lemma replace_all_length (kvs : list (value * value)) (seen : gset nat) :
  length (replace_all kvs seen) = length kvs.
Proof.
  revert seen. induction kvs as [|[k v] kvs IH]; intros seen; [done|].
  cbn [replace_all]. destruct (replacer k v seen). simpl. by rewrite IH.
Qed.

(** X23.  One replacer never lets the same object through twice, whatever
    it is called with: the objects among its answers are pairwise
    different.  It answers every call, and a value that is not an object
    always comes back as it is. *)
Theorem replacer_never_repeats_an_object (kvs : list (value * value)) :
  NoDup (List.filter is_object (replace_all kvs fresh_seen)) /\
  length (replace_all kvs fresh_seen) = length kvs /\
  (forall i k v,
      kvs !! i = Some (k, v) -> is_object v = false ->
      replace_all kvs fresh_seen !! i = Some v).
Proof.
  split; [apply replace_all_objects_NoDup|].
  split; [apply replace_all_length|].
  intros i k v Hi Hobj. rewrite replace_all_from.
  rewrite list_lookup_imap, Hi. cbn.
  by rewrite dropped_primitive.
Qed.

End ReplacerMore.

(** ** The further scenarios *)

Section MoreScenarios.
Import Js Debounce Trailing Unique Bond BondPage WordCounter.
Import Scenario Samples.

Local Open Scope Z_scope.


(** [const d = debounce(fn, 0); d("a"); d("b")] in one run: [fn] is
    invoked for ["b"] only. *)
Lemma zero_window_scenario :
  calls (elapse (E := string) healthy 0
           (run healthy 0 calls_first [(0, "a"); (0, "b")] init)) =
    [(0, "b")].
Proof. reflexivity. Qed.


(** [[NaN].filter(filterUnique)] is [[]]. *)
Lemma lone_NaN_scenario : array_filter filterUnique [NaN] = [].
Proof. reflexivity. Qed.

(** Filtering [keyed] on ["k"] keeps [{ k: 1 }] and the object without
    ["k"]. *)
Lemma unique_keyed_scenario :
  array_filter (uniqueOnProp prop_of "k") keyed =
    [ {[ "k" := Val (VNum 1) ]}; ∅ ] /\
  let r := array_filter (uniqueOnProp prop_of "k") keyed in
  r `sublist_of` keyed /\
  distinct (fun o => prop_of o "k") r /\
  (forall x, x ∈ keyed -> same (prop_of x "k") (prop_of x "k") = true ->
             exists y, y ∈ r /\ same (prop_of y "k") (prop_of x "k") = true) /\
  (forall x, same (prop_of x "k") (prop_of x "k") = false -> x ∉ r) /\
  (forall pre x post,
      keyed = pre ++ x :: post ->
      same (prop_of x "k") (prop_of x "k") = true ->
      (forall y, y ∈ pre -> same (prop_of y "k") (prop_of x "k") = false) ->
      x ∈ r).
Proof.
  split; [reflexivity|].
  apply (uniqueOnProp_keeps_first_per_value prop_of "k" keyed
           any_same_sym any_same_trans).
Defined.

Lemma plain_create_copies (u : value) :
  get (plain_create {[ "pokemonUuid" := u ]}) "pokemonUuid" = u.
Proof. unfold get, plain_create. simpl. by rewrite lookup_singleton_eq. Qed.

Lemma load_cover_scenario :
  (forall p, p ∈ [pikachu; eevee] ->
     exists c, c ∈ loadedConfigs plain_create [pikachu; eevee]
                     [pikachu_config] /\
               get c "pokemonUuid" = get p "uuid") /\
  take (length [pikachu_config])
       (loadedConfigs plain_create [pikachu; eevee] [pikachu_config]) =
    [pikachu_config] /\
  (forall c, c ∈ tempConfigs plain_create [pikachu; eevee] [pikachu_config] ->
     get c "pokemonUuid" ∉
       (fun b => get b "pokemonUuid") <$> [pikachu_config]).
Proof.
  apply (loadedConfigs_cover_every_pokemon plain_create plain_create_copies
           [pikachu; eevee] [pikachu_config]).
Defined.

Lemma load_stable_scenario :
  tempConfigs plain_create [pikachu; eevee]
    (loadedConfigs plain_create [pikachu; eevee] [pikachu_config]) = [] /\
  loadedConfigs plain_create [pikachu; eevee]
    (loadedConfigs plain_create [pikachu; eevee] [pikachu_config]) =
    loadedConfigs plain_create [pikachu; eevee] [pikachu_config].
Proof.
  apply (loadedConfigs_stable plain_create plain_create_copies
           [pikachu; eevee] [pikachu_config]).
Defined.

Lemma load_one_each_scenario :
  NoDup ((fun c => get c "pokemonUuid") <$>
           loadedConfigs plain_create [pikachu; eevee] [pikachu_config]).
Proof.
  apply (loadedConfigs_one_per_pokemon plain_create plain_create_copies
           [pikachu; eevee] [pikachu_config]).
  - vm_compute. apply NoDup_cons_2; [|apply NoDup_singleton].
    intros Hin. apply list_elem_of_singleton in Hin. discriminate Hin.
  - vm_compute. apply NoDup_singleton.
Defined.

Lemma two_rows_distinct : distinct_rows (loaded (E := string) [row7; row9] 3).
Proof.
  split.
  - vm_compute. apply NoDup_cons_2; [|apply NoDup_singleton].
    intros Hin. apply list_elem_of_singleton in Hin. discriminate Hin.
  - repeat constructor.
Qed.

(** [edit(row9, "value", 4)] on the rows 7 and 9. *)
Lemma edit_frame_scenario :
  let ed := loaded (E := string) [row7; row9] 3 in
  exists ed',
    render (snd (edit 250 replace_patch by_id row9 "value" (VNum 4) ed))
      = Some ed' /\
    length (items ed') = length (items ed) /\
    (forall j, j <> 1%nat -> items ed' !! j = items ed !! j) /\
    (exists o o',
        items ed !! 1%nat = Some o /\ items ed' !! 1%nat = Some o' /\
        forall q, q <> "value" -> get o' q = get o q) /\
    deleted ed' = deleted ed.
Proof.
  apply (edit_touches_one_field 250 replace_patch by_id row9 "value"
           (VNum 4) (loaded [row7; row9] 3)).
  - reflexivity.
  - vm_compute. discriminate.
Defined.

Lemma distinct_scenario :
  let ed := loaded (E := string) [row7; row9] 3 in
  (exists ed1,
      render (snd (edit 250 replace_patch by_id row9 "value" (VNum 4) ed))
        = Some ed1 /\
      distinct_rows ed1) /\
  (exists ed2,
      render (snd (remove healthy row9 ed)) = Some ed2 /\
      distinct_rows ed2).
Proof.
  apply (editors_keep_rows_distinct healthy 250 replace_patch by_id
           row9 "value" (VNum 4) (loaded [row7; row9] 3)).
  - apply two_rows_distinct.
  - reflexivity.
Defined.


(** [remove(row9)] on the rows 7 and 9, twice. *)
Lemma remove_twice_scenario :
  let ed := loaded (E := string) [row7; row9] 3 in
  exists ed',
    render (snd (remove healthy row9 ed)) = Some ed' /\
    (forall l, l ∈ items ed' <->
               l ∈ items ed /\ get l "id" <> get row9 "id") /\
    items ed' `sublist_of` items ed /\
    (exists ed'',
        render (snd (remove healthy row9 ed')) = Some ed'' /\
        items ed'' = items ed') /\
    nextRef ed' = nextRef ed.
Proof.
  apply (remove_drops_rows_with_that_id healthy row9
           (loaded [row7; row9] 3) (loaded [row7; row9] 3)).
  reflexivity.
Defined.

(** A row is added for [pikachu], stored under the id 8, and removed. *)
Lemma add_remove_scenario :
  let ed := loaded (E := string) [row7] 3 in
  let row := Obj 0 (<[ "id" := VNum 8 ]>
                      (fields (newLog plain_create (VStr "today") pikachu))) in
  let ed1 := snd (fst (add plain_create store_as_8 "TypeError"
                           (VStr "today") [pikachu; eevee] ed)) in
  (exists shown1 shown2,
      render ed1 = Some shown1 /\
      items shown1 = items ed ++ [row] /\
      render (snd (remove healthy row shown1)) = Some shown2 /\
      items shown2 = items ed) /\
  (exists shown2,
      render (snd (remove healthy row ed1)) = Some shown2 /\
      items shown2 = items ed).
Proof.
  apply (add_then_remove_restores_list plain_create store_as_8 "TypeError"
           (VStr "today") healthy pikachu [eevee] (loaded [row7] 3)
           (loaded [row7] 3)).
  - reflexivity.
  - reflexivity.
  - intros l Hl. apply list_elem_of_singleton in Hl as ->.
    vm_compute. discriminate.
Defined.

(** "h" typed at 0ms, "he" at 100ms, "hey" at 200ms, seen at 450ms. *)
Lemma typing_scenario :
  let w := elapse (E := string) healthy 450
             (run healthy window timers_first
                  ((0, codes "h") :: keystrokes) init) in
  (450 < 200 + window -> page_after true (Page None []) w = Page None []) /\
  (200 + window <= 450 ->
   page_after true (Page None []) w =
     Page (Some (codes "hey")) ([] ++ [("word counter", codes "hey")])).
Proof.
  apply (typing_burst_shows_last_text healthy timers_first true
           (Page None []) 0 (codes "h") keystrokes 450).
  - lia.
  - unfold window. simpl. lia.
Defined.

Local Open Scope N_scope.

(** Two quotes with text between them. *)
Lemma two_quotes_scenario :
  stripQuotes
    (codes "A " ++ codes "[QUOTE" ++ codes "=x" ++
     bracket :: codes "q1[/quote] B [quote=y]q2" ++ codes "[/Quote]" ++
     codes " C") = codes "A " ++ codes " C" /\
  labelCount
    (Some (codes "A " ++ codes "[QUOTE" ++ codes "=x" ++
           bracket :: codes "q1[/quote] B [quote=y]q2" ++ codes "[/Quote]" ++
           codes " C")) = countWords (codes "A " ++ codes " C").
Proof.
  apply (stripQuotes_drops_first_open_to_last_close
           (codes "A ") (codes "[QUOTE") (codes "=x")
           (codes "q1[/quote] B [quote=y]q2") (codes "[/Quote]")
           (codes " C")).
  - repeat constructor; done.
  - reflexivity.
  - done.
  - repeat constructor.
  - reflexivity.
  - repeat constructor; done.
Defined.

(** An opening tag that is never closed. *)
Lemma unclosed_quote_scenario :
  stripQuotes (codes "[quote=a] x") = codes "[quote=a] x" /\
  labelCount (Some (codes "[quote=a] x")) = countWords (codes "[quote=a] x").
Proof.
  apply (stripQuotes_needs_a_closing_tag (codes "[quote=a] x")).
  intros i. do 12 (destruct i as [|i]; [reflexivity|]). reflexivity.
Defined.

(** A quote without attribute. *)
Lemma plain_quote_scenario :
  stripQuotes (codes "see " ++ codes "[quote]" ++ codes "text" ++
               close_tag ++ codes " rest") =
    codes "see " ++ codes "[quote]" ++ codes "text" ++ close_tag ++
    codes " rest".
Proof.
  apply (stripQuotes_keeps_quote_without_attribute
           (codes "see ") (codes "text") (codes " rest")).
  - repeat constructor; done.
  - repeat constructor; done.
  - repeat constructor; done.
Defined.

End MoreScenarios.

